(** * A shallow embedding of the vmem arena allocator (src/src/vmem.c)

    Machine words are integers in [0, 2^64) with explicit wrap-around; the
    boundary tags live in a store indexed by pointer, and the three intrusive
    linkages of the C code (segment queue, free lists, hash table) are lists
    of pointers into that store.  Assertion failures, undefined behaviour and
    the non-terminating retry loop are explicit outcomes. *)

From Stdlib Require Import ZArith Lia Bool.
From stdpp Require Import base option list gmap.

Local Open Scope Z_scope.

(** ** Machine words *)

Module Word.

Definition modulus : Z := 2 ^ 64.

(** Reduction of an integer to an unsigned 64-bit word (uintptr_t, size_t). *)
Definition wrap (x : Z) : Z := x mod modulus.

Definition add (x y : Z) : Z := wrap (x + y).
Definition sub (x y : Z) : Z := wrap (x - y).
Definition mul (x y : Z) : Z := wrap (x * y).

(** Bitwise complement of a 64-bit word. *)
Definition not (x : Z) : Z := wrap (Z.lnot x).

Definition in_range (x : Z) : Prop := 0 <= x < modulus.

(** [__builtin_clzl]: scan from bit [n-1] downwards and count the zero bits
    above the most significant set bit.  The builtin is undefined on 0; the
    callers below guard that case. *)
Fixpoint clz_from (n : nat) (x : Z) : Z :=
  match n with
  | O => 0
  | S k => if Z.testbit x (Z.of_nat k) then 0 else 1 + clz_from k x
  end.

Definition clzl (x : Z) : Z := clz_from 64 x.

End Word.

(** ** Outcomes of a call *)

Inductive outcome (A : Type) : Type :=
| Done (a : A)      (* the call returns *)
| Abort             (* an ASSERT fails *)
| Undefined         (* out-of-bounds access, null dereference, clzl(0) *)
| Spin.             (* the call is still looping when the fuel runs out *)

Arguments Done {A} a.
Arguments Abort {A}.
Arguments Undefined {A}.
Arguments Spin {A}.

Definition obind {A B} (f : A -> outcome B) (m : outcome A) : outcome B :=
  match m with
  | Done a => f a
  | Abort => Abort
  | Undefined => Undefined
  | Spin => Spin
  end.

#[global] Instance outcome_ret : MRet outcome := fun A a => Done a.
#[global] Instance outcome_bind : MBind outcome := fun A B f m => obind f m.

(** [ASSERT(b)] *)
Definition ASSERT (b : bool) : outcome unit := if b then Done tt else Abort.

(** A pointer that must be valid and an index that must be in bounds. *)
Definition defined {A} (o : option A) : outcome A :=
  match o with Some a => Done a | None => Undefined end.

(** ** Constants and macros *)

(** Modelled from the spec: vmem.h is absent; the number of free lists is
    [K = 64] (one bucket per bit of a machine word), which is also what the
    comment above GET_LIST assumes. *)
Definition FREELISTS_N : Z := 64.

(** [#define GET_LIST(size) (FREELISTS_N - __builtin_clzl(size) - 1)] *)
Definition GET_LIST (size : Z) : Z := FREELISTS_N - Word.clzl size - 1.

(** [#define VMEM_ALIGNUP(addr, align) (((addr) + (align)-1) & ~((align)-1))] *)
Definition VMEM_ALIGNUP (addr align : Z) : Z :=
  Z.land (Word.sub (Word.add addr align) 1) (Word.not (Word.sub align 1)).

(** [static uint64_t murmur64(uint64_t h)] *)
Definition murmur64 (h : Z) : Z :=
  let h := Z.lxor h (Z.shiftr h 33) in
  let h := Word.mul h 0xff51afd7ed558ccd in
  let h := Z.lxor h (Z.shiftr h 33) in
  let h := Word.mul h 0xc4ceb9fe1a85ec53 in
  Z.lxor h (Z.shiftr h 33).

(** ** Data model *)

(** The order of [seg_type_str]: allocated, free, span. *)
Inductive VmemSegType : Type :=
| SEGMENT_ALLOCATED
| SEGMENT_FREE
| SEGMENT_SPAN.

#[global] Instance VmemSegType_eq_dec : EqDecision VmemSegType.
Proof. solve_decision. Defined.

(** A boundary tag, with the fields vmem.c reads and writes (the struct is
    declared in vmem.h).  The queue and list linkage of the C struct is
    carried by the containers of the arena below. *)
Record VmemSegment : Type := mkSeg {
  seg_type : VmemSegType;
  seg_imported : bool;
  seg_base : Z;
  seg_size : Z
}.

(** Pointers to boundary tags, as handed out by [seg_alloc]. *)
Abbreviation ptr := nat.

(** The arena.  [store] is the memory holding the boundary tags, [brk] the
    next pointer [seg_alloc] hands out; [source] records whether the source
    arena pointer is non-null.  The name, the callbacks and [qcache_max] are
    never read by the functions below and are left out. *)
Record Vmem : Type := mkVmem {
  quantum : Z;
  source : bool;
  segqueue : list ptr;
  freelist : list (list ptr);
  hashtable : list (list ptr);
  store : gmap nat VmemSegment;
  brk : ptr
}.

Definition set_segqueue (q : list ptr) (vm : Vmem) : Vmem :=
  mkVmem (quantum vm) (source vm) q (freelist vm) (hashtable vm) (store vm) (brk vm).
Definition set_freelist (f : list (list ptr)) (vm : Vmem) : Vmem :=
  mkVmem (quantum vm) (source vm) (segqueue vm) f (hashtable vm) (store vm) (brk vm).
Definition set_hashtable (h : list (list ptr)) (vm : Vmem) : Vmem :=
  mkVmem (quantum vm) (source vm) (segqueue vm) (freelist vm) h (store vm) (brk vm).
Definition set_store (s : gmap nat VmemSegment) (vm : Vmem) : Vmem :=
  mkVmem (quantum vm) (source vm) (segqueue vm) (freelist vm) (hashtable vm) s (brk vm).
Definition set_brk (b : ptr) (vm : Vmem) : Vmem :=
  mkVmem (quantum vm) (source vm) (segqueue vm) (freelist vm) (hashtable vm) (store vm) b.

(** Modelled from the spec: the flag bits of the absent vmem.h.  A field is
    the truth value of the test [vmflag & VM_...]. *)
Record VmFlags : Type := mkFlags {
  VM_INSTANTFIT : bool;
  VM_BESTFIT : bool;
  VM_BOOTSTRAP : bool
}.

(** ** Memory and intrusive lists *)

(** [seg_alloc()] in hosted mode: a fresh record from the host heap. *)
Definition seg_alloc (vm : Vmem) : ptr * Vmem := (brk vm, set_brk (S (brk vm)) vm).

(** [seg->field] reads and whole-record writes. *)
Definition load (vm : Vmem) (p : ptr) : outcome VmemSegment := defined (store vm !! p).
Definition write (p : ptr) (seg : VmemSegment) (vm : Vmem) : Vmem :=
  set_store (<[p := seg]> (store vm)) vm.

(** [LIST_REMOVE(elm, seglist)]: unlink [elm] from the list that holds it. *)
Definition LIST_REMOVE (elm : ptr) (lists : list (list ptr)) : list (list ptr) :=
  map (filter (fun q => q <> elm)) lists.

(** [TAILQ_INSERT_AFTER(head, listelm, elm, field)] *)
Fixpoint TAILQ_INSERT_AFTER (q : list ptr) (listelm elm : ptr) : option (list ptr) :=
  match q with
  | [] => None
  | x :: r =>
      if decide (x = listelm) then Some (x :: elm :: r)
      else cons x <$> TAILQ_INSERT_AFTER r listelm elm
  end.

(** [TAILQ_PREV(elm, headname, field)]: the element before [elm], NULL for
    the first one. *)
Fixpoint tailq_prev_from (last : option ptr) (q : list ptr) (elm : ptr) : option ptr :=
  match q with
  | [] => None
  | x :: r => if decide (x = elm) then last else tailq_prev_from (Some x) r elm
  end.

Definition TAILQ_PREV (q : list ptr) (elm : ptr) : option ptr := tailq_prev_from None q elm.

(** ** Free-list index and hash table *)

(** The index computed by [freelist_for_size]: [GET_LIST(size) - 1]. *)
Definition freelist_index (size : Z) : Z := GET_LIST size - 1.

(** [freelist_for_size]: the address of [vmem->freelist[GET_LIST(size) - 1]].
    [__builtin_clzl(0)] and an index outside the array are undefined. *)
Definition freelist_for_size (vm : Vmem) (size : Z) : outcome nat :=
  if size =? 0 then Undefined
  else
    let i := freelist_index size in
    if (0 <=? i) && (i <? Z.of_nat (length (freelist vm)))
    then Done (Z.to_nat i) else Undefined.

(** [hashbucket_for_addr]: [murmur64(addr) % ARR_SIZE(vmem->hashtable)]. *)
Definition hashbucket_for_addr (vm : Vmem) (addr : Z) : outcome nat :=
  let n := Z.of_nat (length (hashtable vm)) in
  if n =? 0 then Undefined else Done (Z.to_nat (murmur64 addr mod n)).

(** [hashtab_insert]: LIST_INSERT_HEAD into the bucket of [seg->base]. *)
Definition hashtab_insert (vm : Vmem) (p : ptr) : outcome Vmem :=
  seg ← load vm p;
  i ← hashbucket_for_addr vm (seg_base seg);
  bucket ← defined (hashtable vm !! i);
  Done (set_hashtable (<[i := p :: bucket]> (hashtable vm)) vm).

(** [vmem_add_to_freelist]: LIST_INSERT_HEAD into the list of [seg->size]. *)
Definition vmem_add_to_freelist (vm : Vmem) (p : ptr) : outcome Vmem :=
  seg ← load vm p;
  i ← freelist_for_size vm (seg_size seg);
  bucket ← defined (freelist vm !! i);
  Done (set_freelist (<[i := p :: bucket]> (freelist vm)) vm).

(** [vmem_insert_segment]: TAILQ_INSERT_AFTER; [prev] may be NULL. *)
Definition vmem_insert_segment (vm : Vmem) (p : ptr) (prev : option ptr) : outcome Vmem :=
  prev' ← defined prev;
  q ← defined (TAILQ_INSERT_AFTER (segqueue vm) prev' p);
  Done (set_segqueue q vm).

(** ** vmem_contains, vmem_add, vmem_create *)

(** The test inside the loop of [vmem_contains]:
    [start >= seg->base && end <= seg->base + seg->size]. *)
Definition seg_contains (seg : VmemSegment) (start end_ : Z) : bool :=
  (seg_base seg <=? start) && (end_ <=? Word.add (seg_base seg) (seg_size seg)).

(** [TAILQ_FOREACH(seg, &vmp->segqueue, segqueue)] *)
Fixpoint contains_loop (vm : Vmem) (q : list ptr) (start end_ : Z) : outcome bool :=
  match q with
  | [] => Done false
  | p :: r =>
      seg ← load vm p;
      if seg_contains seg start end_ then Done true
      else contains_loop vm r start end_
  end.

(** [vmem_contains] *)
Definition vmem_contains (vm : Vmem) (address size : Z) : outcome bool :=
  let start := address in
  let end_ := Word.add start size in
  contains_loop vm (segqueue vm) start end_.

(** [vmem_add_internal]: a SPAN record at the tail of the queue, a FREE
    record of the same extent after it and in its free list. *)
Definition vmem_add_internal (vm : Vmem) (base size : Z) (import : bool)
  : outcome (ptr * Vmem) :=
  let '(newspan, vm) := seg_alloc vm in
  let vm := write newspan (mkSeg SEGMENT_SPAN import base size) vm in
  let '(newfree, vm) := seg_alloc vm in
  (* newfree->imported is left uninitialised by the code *)
  let vm := write newfree (mkSeg SEGMENT_FREE false base size) vm in
  let vm := set_segqueue (segqueue vm ++ [newspan]) vm in
  vm ← vmem_insert_segment vm newfree (Some newspan);
  vm ← vmem_add_to_freelist vm newfree;
  Done (newfree, vm).

(** [vmem_add]: [ASSERT(!vmem_contains(vmp, addr, size))], then the span. *)
Definition vmem_add (vm : Vmem) (addr size : Z) : outcome (ptr * Vmem) :=
  c ← vmem_contains vm addr size;
  _ ← ASSERT (negb c);
  vmem_add_internal vm addr size false.

(** [vmem_create]; [nbuckets] is the length of the hash table array, a
    constant of the absent vmem.h. *)
Definition vmem_create (nbuckets : nat) (base size quantum : Z) (source : bool)
  : outcome Vmem :=
  let ret := mkVmem quantum source [] (replicate (Z.to_nat FREELISTS_N) [])
                    (replicate nbuckets []) ∅ 0%nat in
  if negb source && negb (size =? 0)
  then '(_, vm) ← vmem_add ret base size; Done vm
  else Done ret.

(** ** seg_fit *)

(** [seg_fit]: [Done (Some start)] is the return value 0 with [*addrp = start],
    [Done None] is [-ENOMEM]. *)
Definition seg_fit (segment : VmemSegment) (size align phase nocross minaddr maxaddr : Z)
  : outcome (option Z) :=
  _ ← ASSERT (0 <? size);
  _ ← ASSERT (size <=? seg_size segment);
  let start := Z.min (seg_base segment) minaddr in
  let end_ := Z.max (Word.add (seg_base segment) (seg_size segment)) maxaddr in
  if end_ <? start then Done None
  else
    let start := Word.add (VMEM_ALIGNUP (Word.sub start phase) align) phase in
    let start := if start <? seg_base segment then Word.add start align else start in
    _ ← ASSERT (nocross =? 0);
    if (start <=? end_) && (size <=? Word.sub end_ start)
    then Done (Some start)
    else Done None.

(** ** vmem_xalloc *)

Section XallocArgs.

Variables (size align phase nocross minaddr maxaddr : Z).

(** The VM_INSTANTFIT scan: [for (list = first_list; list < end; list++)]
    over the lists from [first_list] on, looking only at LIST_FIRST. *)
Fixpoint instantfit_scan (vm : Vmem) (lists : list (list ptr)) : outcome (option (ptr * Z)) :=
  match lists with
  | [] => Done None
  | l :: rest =>
      match l with
      | [] => instantfit_scan vm rest
      | p :: _ =>
          seg ← load vm p;
          r ← seg_fit seg size align phase nocross minaddr maxaddr;
          match r with
          | Some start => Done (Some (p, start))
          | None => instantfit_scan vm rest
          end
      end
  end.

(** The VM_BESTFIT scan: LIST_FOREACH over one list ... *)
Fixpoint bestfit_list (vm : Vmem) (l : list ptr) : outcome (option (ptr * Z)) :=
  match l with
  | [] => Done None
  | p :: rest =>
      seg ← load vm p;
      if size <=? seg_size seg then
        r ← seg_fit seg size align phase nocross minaddr maxaddr;
        match r with
        | Some start => Done (Some (p, start))
        | None => bestfit_list vm rest
        end
      else bestfit_list vm rest
  end.

(** ... inside the loop over the lists from [first_list] on. *)
Fixpoint bestfit_scan (vm : Vmem) (lists : list (list ptr)) : outcome (option (ptr * Z)) :=
  match lists with
  | [] => Done None
  | l :: rest =>
      r ← bestfit_list vm l;
      match r with
      | Some found => Done (Some found)
      | None => bestfit_scan vm rest
      end
  end.

(** One turn of the [while (true)] loop. *)
Definition xalloc_turn (vm : Vmem) (first_list : nat) (vmflag : VmFlags)
  : outcome (option (ptr * Z)) :=
  if VM_INSTANTFIT vmflag then instantfit_scan vm (drop first_list (freelist vm))
  else if VM_BESTFIT vmflag then bestfit_scan vm (drop first_list (freelist vm))
  else _ ← ASSERT false; Done None.

(** [while (true) { ... goto found; ... }]: the arena is not modified inside
    the loop, and the only exit is the jump to [found]. *)
Fixpoint xalloc_search (fuel : nat) (vm : Vmem) (first_list : nat) (vmflag : VmFlags)
  : outcome (ptr * Z) :=
  match fuel with
  | O => Spin
  | S fuel' =>
      r ← xalloc_turn vm first_list vmflag;
      match r with
      | Some found => Done found
      | None => xalloc_search fuel' vm first_list vmflag
      end
  end.

End XallocArgs.

(** The code from the label [found] on, in its three blocks.  [new_seg] and
    [new_seg2] come from [seg_alloc] and never alias [seg]; the fields of
    [seg] are followed in the local record [s] while every assignment is also
    written to the store. *)

(** [if (seg->base != start) { ... }]: carve the leading leftover. *)
Definition xalloc_head_split (vm : Vmem) (seg new_seg2 : ptr) (s : VmemSegment) (start : Z)
  : outcome (VmemSegment * Vmem) :=
  if negb (seg_base s =? start) then
    let s2 := mkSeg SEGMENT_FREE false (seg_base s) (Word.sub start (seg_base s)) in
    let vm := write new_seg2 s2 vm in
    let s := mkSeg (seg_type s) (seg_imported s) start
                   (Word.sub (seg_size s) (seg_size s2)) in
    let vm := write seg s vm in
    vm ← vmem_add_to_freelist vm new_seg2;
    vm ← vmem_insert_segment vm new_seg2 (TAILQ_PREV (segqueue vm) seg);
    Done (s, vm)
  else Done (s, vm).

(** [if (seg->size > size && (seg->size - size) > vmp->quantum - 1) { ... }
    else { ... }] and the lines up to the return. *)
Definition xalloc_tail_split (vm : Vmem) (seg new_seg : ptr) (s : VmemSegment) (size : Z)
  : outcome (Z * Vmem) :=
  if (size <? seg_size s) && (Word.sub (quantum vm) 1 <? Word.sub (seg_size s) size) then
    let n := mkSeg SEGMENT_ALLOCATED false (seg_base s) size in
    let vm := write new_seg n vm in
    let s := mkSeg (seg_type s) (seg_imported s) (Word.add (seg_base s) size)
                   (Word.sub (seg_size s) size) in
    let vm := write seg s vm in
    vm ← vmem_add_to_freelist vm seg;
    vm ← vmem_insert_segment vm new_seg (TAILQ_PREV (segqueue vm) seg);
    vm ← hashtab_insert vm new_seg;
    _ ← ASSERT (size <=? seg_size n);
    Done (seg_base n, vm)
  else
    vm ← hashtab_insert vm seg;
    _ ← ASSERT (size <=? seg_size s);
    let s := mkSeg SEGMENT_ALLOCATED (seg_imported s) (seg_base s) (seg_size s) in
    let vm := write seg s vm in
    Done (seg_base s, vm).

Definition xalloc_found (vm : Vmem) (seg new_seg new_seg2 : ptr) (start size : Z)
  : outcome (Z * Vmem) :=
  s ← load vm seg;
  _ ← ASSERT (bool_decide (seg_type s = SEGMENT_FREE));
  _ ← ASSERT (size <=? seg_size s);
  let vm := set_freelist (LIST_REMOVE seg (freelist vm)) vm in
  '(s, vm) ← xalloc_head_split vm seg new_seg2 s start;
  _ ← ASSERT (seg_base s =? start);
  xalloc_tail_split vm seg new_seg s size.

(** [vmem_xalloc].  [repopulate_segments] touches only the global record
    pool and always returns 0, so VM_BOOTSTRAP leaves the arena alone. *)
Definition vmem_xalloc (fuel : nat) (vm : Vmem)
    (size align phase nocross minaddr maxaddr : Z) (vmflag : VmFlags)
  : outcome (Z * Vmem) :=
  first_list ← freelist_for_size vm size;
  _ ← ASSERT (nocross =? 0);
  let align := if align =? 0 then quantum vm else align in
  let '(new_seg, vm) := seg_alloc vm in
  let '(new_seg2, vm) := seg_alloc vm in
  '(seg, start) ← xalloc_search size align phase nocross minaddr maxaddr
                    fuel vm first_list vmflag;
  xalloc_found vm seg new_seg new_seg2 start size.

(** ** alloc and free *)

(** Modelled from the spec: [vmem_alloc] is not in vmem.c; it is the
    shorthand for [xalloc(arena, size, 0, 0, 0, 0, 0, flags)]. *)
Definition vmem_alloc (fuel : nat) (vm : Vmem) (size : Z) (vmflag : VmFlags)
  : outcome (Z * Vmem) :=
  vmem_xalloc fuel vm size 0 0 0 0 0 vmflag.

(** Modelled from the spec: the successor of a segment in the segment
    list (B), which free examines; TAILQ_NEXT is not used by vmem.c. *)
Fixpoint TAILQ_NEXT (q : list ptr) (elm : ptr) : option ptr :=
  match q with
  | [] => None
  | x :: r => if decide (x = elm) then head r else TAILQ_NEXT r elm
  end.

(** Modelled from the spec: removal from the segment list (B);
    TAILQ_REMOVE is not used by vmem.c. *)
Definition TAILQ_REMOVE (q : list ptr) (elm : ptr) : list ptr :=
  filter (fun x => x <> elm) q.

(** Modelled from the spec: the lookup in the allocated hash index (D), a
    walk of the bucket of [address] for the record with that base; vmem.c
    only inserts into the table. *)
Fixpoint hashtab_find (vm : Vmem) (bucket : list ptr) (address : Z) : outcome (option ptr) :=
  match bucket with
  | [] => Done None
  | p :: r =>
      seg ← load vm p;
      if seg_base seg =? address then Done (Some p) else hashtab_find vm r address
  end.

(** Modelled from the spec: a size rounded up to the quantum, for the size
    check of free, which vmem.c does not have. *)
Definition quantum_round (vm : Vmem) (size : Z) : Z :=
  if quantum vm =? 0 then size
  else (size + quantum vm - 1) / quantum vm * quantum vm.

(** Modelled from the spec: the coalescing step of free, absent from vmem.c.
    Merge [seg] (held in the local record [s]) with the neighbour [other]
    when that neighbour is FREE: absorb its range, unlink it from the free
    lists and from the queue, recycle its record. *)
Definition free_merge (vm : Vmem) (s : VmemSegment) (other : option ptr) (before : bool)
  : outcome (VmemSegment * Vmem) :=
  match other with
  | None => Done (s, vm)
  | Some o =>
      so ← load vm o;
      if bool_decide (seg_type so = SEGMENT_FREE) then
        let s := mkSeg (seg_type s) (seg_imported s)
                       (if before then seg_base so else seg_base s)
                       (Word.add (seg_size s) (seg_size so)) in
        let vm := set_freelist (LIST_REMOVE o (freelist vm)) vm in
        let vm := set_segqueue (TAILQ_REMOVE (segqueue vm) o) vm in
        let vm := set_store (delete o (store vm)) vm in
        Done (s, vm)
      else Done (s, vm)
  end.

(** Modelled from the spec: [vmem_free] is not in vmem.c.  Look the segment
    up in the hash table by address, assert that the stored size is the
    caller's size up to quantum rounding, unlink it from the table, mark it
    FREE, merge with a FREE predecessor and a FREE successor (a FREE
    neighbour is in the same span, every span starting with its SPAN
    record), insert the survivor into the free lists, and hand a fully free
    imported span back when the arena has a source. *)
Definition vmem_free (vm : Vmem) (address size : Z) : outcome Vmem :=
  i ← hashbucket_for_addr vm address;
  bucket ← defined (hashtable vm !! i);
  found ← hashtab_find vm bucket address;
  match found with
  | None => Abort
  | Some seg =>
      s ← load vm seg;
      _ ← ASSERT (quantum_round vm (seg_size s) =? quantum_round vm size);
      let vm := set_hashtable (LIST_REMOVE seg (hashtable vm)) vm in
      let s := mkSeg SEGMENT_FREE (seg_imported s) (seg_base s) (seg_size s) in
      '(s, vm) ← free_merge vm s (TAILQ_PREV (segqueue vm) seg) true;
      '(s, vm) ← free_merge vm s (TAILQ_NEXT (segqueue vm) seg) false;
      let vm := write seg s vm in
      vm ← vmem_add_to_freelist vm seg;
      match TAILQ_PREV (segqueue vm) seg with
      | None => Done vm
      | Some sp =>
          span ← load vm sp;
          if bool_decide (seg_type span = SEGMENT_SPAN) && seg_imported span
             && (seg_base span =? seg_base s) && (seg_size span =? seg_size s)
             && source vm
          then
            let vm := set_freelist (LIST_REMOVE seg (freelist vm)) vm in
            let vm := set_segqueue (TAILQ_REMOVE (TAILQ_REMOVE (segqueue vm) seg) sp) vm in
            Done (set_store (delete sp (delete seg (store vm))) vm)
          else Done vm
      end
  end.

(** ** Properties stated by the specification *)

(** A power of two that fits a machine word. *)
Definition pow2 (x : Z) : Prop := exists k, 0 <= k < 64 /\ x = 2 ^ k.

(** The alignment [vmem_xalloc] works with: [align], or the quantum for 0. *)
Definition effective_align (vm : Vmem) (align : Z) : Z :=
  if align =? 0 then quantum vm else align.

(** Invariant 6 of the data model: every non-span segment has a size that is
    a positive multiple of the quantum. *)
Definition quantum_sized (vm : Vmem) : Prop :=
  map_Forall (fun _ s => seg_type s <> SEGMENT_SPAN ->
                0 < seg_size s /\ (quantum vm | seg_size s)) (store vm).

(** A record that is a pair of words, both multiples of [q], the size
    positive. *)
Definition good_record (q : Z) (s : VmemSegment) : Prop :=
  (0 <= seg_base s < Word.modulus /\ (q | seg_base s)) /\
  (0 < seg_size s < Word.modulus /\ (q | seg_size s)).

(** The same with the bases: non-span segments are words that start and end
    on quantum boundaries. *)
Definition granular (vm : Vmem) : Prop :=
  map_Forall (fun _ s => seg_type s <> SEGMENT_SPAN -> good_record (quantum vm) s)
             (store vm).

(** Two arenas with the same records and the same quantum. *)
Definition same_records (vm vm' : Vmem) : Prop :=
  store vm' = store vm /\ quantum vm' = quantum vm.

(** [[start, start + size)] shares an address with the extent of [seg]. *)
Definition overlaps (seg : VmemSegment) (start size : Z) : Prop :=
  seg_base seg < start + size /\ start < seg_base seg + seg_size seg.

Section Fit.

Variables (st : gmap nat VmemSegment) (size align phase nocross minaddr maxaddr : Z).

(** [p] is a candidate of the best-fit scan: big enough, and [seg_fit]
    places the request at [start]. *)
Definition fits_at (p : ptr) (start : Z) : Prop :=
  exists s, st !! p = Some s /\ size <= seg_size s /\
            seg_fit s size align phase nocross minaddr maxaddr = Done (Some start).

Definition fits (p : ptr) : Prop := exists start, fits_at p start.

(** No list before position [i] holds a candidate. *)
Definition lower_lists_fail (lists : list (list ptr)) (i : nat) : Prop :=
  forall j l q, (j < i)%nat -> lists !! j = Some l -> q ∈ l -> ~ fits q.

(** The choice the specification describes: the smallest candidate of the
    lowest list that has one. *)
Definition smallest_fit (lists : list (list ptr)) (p : ptr) : Prop :=
  exists i l s, lists !! i = Some l /\ p ∈ l /\ fits p /\ st !! p = Some s /\
    lower_lists_fail lists i /\
    forall q sq, q ∈ l -> fits q -> st !! q = Some sq -> seg_size s <= seg_size sq.

(** The choice the code makes: the first candidate, in list order, of the
    lowest list that has one. *)
Definition first_fit (lists : list (list ptr)) (p : ptr) (start : Z) : Prop :=
  exists i pre post, lists !! i = Some (pre ++ p :: post) /\ fits_at p start /\
    lower_lists_fail lists i /\ forall q, q ∈ pre -> ~ fits q.

End Fit.

(** ** Concrete arenas used below *)

Definition INSTANTFIT : VmFlags := mkFlags true false false.
Definition BESTFIT : VmFlags := mkFlags false true false.

(** The state a computation ends in, or the empty arena when it fails. *)
Definition arena_of (o : outcome Vmem) : Vmem :=
  match o with
  | Done vm => vm
  | _ => mkVmem 0 false [] [] [] ∅ 0%nat
  end.

Definition after {A} (o : outcome (A * Vmem)) : outcome Vmem :=
  '(_, vm) ← o; Done vm.

(** The hash table of the concrete arenas has 16 buckets. *)
Definition create (base size quantum : Z) : Vmem :=
  arena_of (vmem_create 16 base size quantum false).

(** One span [[0x1000, 0x2000)], quantum 0x1000. *)
Definition arena_page : Vmem := create 0x1000 0x1000 0x1000.

(** One span [[0, 0x1000)], quantum 0x1000, and the same arena after
    [xalloc(0x1000, 0, 0, 0, 0, 0, INSTANTFIT)] took the whole span. *)
Definition arena_one : Vmem := create 0 0x1000 0x1000.
Definition arena_one_full : Vmem :=
  arena_of (after (vmem_xalloc 1 arena_one 0x1000 0 0 0 0 0 INSTANTFIT)).

(** One span [[0, 0x1000)], quantum 0x800. *)
Definition arena_half : Vmem := create 0 0x1000 0x800.

(** One span [[0, 0x2000)], quantum 0x1000, and the same arena after
    [add(0x2000, 0x3000)]: free segments of sizes 0x2000 and 0x3000. *)
Definition arena_two : Vmem := create 0 0x2000 0x1000.
Definition arena_two_spans : Vmem :=
  arena_of (after (vmem_add arena_two 0x2000 0x3000)).

(** The lists a request of 0x1800 scans in that arena. *)
Definition arena_two_lists : list (list ptr) := drop 11 (freelist arena_two_spans).

(** One span [[0, 0x10000)], quantum 0x100, and the same arena after
    [xalloc(0x1000, 0x1000, 0x100, 0, 0, 0, INSTANTFIT)]. *)
Definition arena_64k : Vmem := create 0 0x10000 0x100.
Definition arena_64k_split : Vmem :=
  arena_of (after (vmem_xalloc 1 arena_64k 0x1000 0x1000 0x100 0 0 0 INSTANTFIT)).

(** One span [[0x3000, 0x6000)], quantum 0x1000. *)
Definition arena_high : Vmem := create 0x3000 0x3000 0x1000.

(** ** The record pool of the kernel build *)

(** Under [__KERNEL__] the boundary tags come from a global list
    [free_segs] counted by [nfreesegs] (an [int]; the counts stay far from
    its limits and are kept as integers). *)
Module Pool.

Record t : Type := mk {
  free_segs : list ptr;
  nfreesegs : Z
}.

Definition NFREESEGS_MIN : Z := 8.

(** [seg_alloc] of the kernel build: [ASSERT(!LIST_EMPTY(&free_segs))], then
    LIST_FIRST, LIST_REMOVE and [nfreesegs--]. *)
Definition seg_alloc (pl : t) : outcome (ptr * t) :=
  match free_segs pl with
  | [] => Abort
  | vsp :: rest => Done (vsp, mk rest (nfreesegs pl - 1))
  end.

(** [seg_free] of the kernel build: LIST_INSERT_HEAD and [nfreesegs++]. *)
Definition seg_free (pl : t) (seg : ptr) : t :=
  mk (seg :: free_segs pl) (nfreesegs pl + 1).

(** [repopulate_segments]; [segblock i] is the address of
    [segblock->segs[i]] in the page [alloc_pages(1)] returned, an array of 64
    records.  The return value is always 0. *)
Definition repopulate_segments (segblock : nat -> ptr) (pl : t) : Z * t :=
  if NFREESEGS_MIN <? nfreesegs pl then (0, pl)
  else
    let pl := fold_left seg_free (map segblock (seq 0 64)) pl in
    (0, mk (free_segs pl) (nfreesegs pl + 64)).

(** [vmem_bootstrap]; [static_segs i] is the address of [static_segs[i]], an
    array of 128 records. *)
Definition vmem_bootstrap (static_segs : nat -> ptr) (pl : t) : t :=
  fold_left (fun pl seg => mk (seg :: free_segs pl) (nfreesegs pl + 1))
            (map static_segs (seq 0 128)) pl.

(** The counter agrees with the list. *)
Definition counted (pl : t) : Prop :=
  nfreesegs pl = Z.of_nat (length (free_segs pl)).

(** The pool before [vmem_bootstrap]: LIST_HEAD_INITIALIZER and 0. *)
Definition empty : t := mk [] 0.

(** [n] calls of [seg_alloc] in a row, as a caller that takes [n] records
    makes them. *)
Fixpoint drain (n : nat) (pl : t) : outcome t :=
  match n with
  | O => Done pl
  | S k => '(_, pl) ← seg_alloc pl; drain k pl
  end.

End Pool.

(** ** Properties of the arena as a linked structure *)

(** [h ^= h >> 33] *)
Definition xorshift33 (h : Z) : Z := Z.lxor h (Z.shiftr h 33).

(** The inverse of [murmur64] on 64-bit words: the xor-shifts are their own
    inverses and the two multipliers are inverted modulo 2^64. *)
Definition unmurmur64 (h : Z) : Z :=
  let h := xorshift33 h in
  let h := Word.mul h 0x9cb4b2f8129337db in
  let h := xorshift33 h in
  let h := Word.mul h 0x4f74430c22a54005 in
  xorshift33 h.

(** [p] is linked in one of the lists of an array of lists. *)
Definition linked (lists : list (list ptr)) (p : ptr) : Prop :=
  exists l, l ∈ lists /\ p ∈ l.

(** Every entry of the segment queue points to a record. *)
Definition queue_valid (vm : Vmem) : Prop :=
  forall p, p ∈ segqueue vm -> is_Some (store vm !! p).

(** Every record was handed out by [seg_alloc]. *)
Definition store_fresh (vm : Vmem) : Prop :=
  forall p, is_Some (store vm !! p) -> (p < brk vm)%nat.

(** The records linked in [lists] are in the segment queue and of type [t]. *)
Definition lists_hold (t : VmemSegType) (lists : list (list ptr)) (vm : Vmem) : Prop :=
  forall p, linked lists p ->
    p ∈ segqueue vm /\ exists s, store vm !! p = Some s /\ seg_type s = t.

(** The first entry of the segment queue is a span. *)
Definition queue_head_span (vm : Vmem) : Prop :=
  forall p s, head (segqueue vm) = Some p -> store vm !! p = Some s ->
              seg_type s = SEGMENT_SPAN.

(** The shape every arena built by [vmem_create], [vmem_add] and
    [vmem_xalloc] has: no queue entry twice, every queue entry a record,
    every record below [brk], the free lists holding FREE records of the
    queue, the hash table ALLOCATED ones, and a span at the head. *)
Definition arena_wf (vm : Vmem) : Prop :=
  NoDup (segqueue vm) /\ queue_valid vm /\ store_fresh vm /\
  lists_hold SEGMENT_FREE (freelist vm) vm /\
  lists_hold SEGMENT_ALLOCATED (hashtable vm) vm /\
  queue_head_span vm.

(** The record of an allocation as [vmem_xalloc] leaves it: at the head of
    the hash bucket of its address, ALLOCATED, at least as large as the
    request, and in the segment queue. *)
Definition recorded_at (vm : Vmem) (a size : Z) : Prop :=
  exists p j hb rec,
    Z.of_nat j = murmur64 a mod Z.of_nat (length (hashtable vm)) /\
    hashtable vm !! j = Some (p :: hb) /\ p ∈ segqueue vm /\
    store vm !! p = Some rec /\ seg_type rec = SEGMENT_ALLOCATED /\
    seg_base rec = a /\ size <= seg_size rec.

(** ** Machine-word lemmas *)

Lemma wrap_range x : 0 <= Word.wrap x < Word.modulus.
Proof. unfold Word.wrap. apply Z.mod_pos_bound. reflexivity. Qed.

Lemma wrap_small x : 0 <= x < Word.modulus -> Word.wrap x = x.
Proof. intros H. unfold Word.wrap. apply Z.mod_small. exact H. Qed.

Lemma wrap_divide d x : (d | Word.modulus) -> (d | x) -> (d | Word.wrap x).
Proof.
  intros Hm Hx. unfold Word.wrap. rewrite Z.mod_eq by discriminate.
  apply Z.divide_sub_r; [exact Hx|]. apply Z.divide_mul_l. exact Hm.
Qed.

Lemma wrap_divide_inv d x : (d | Word.modulus) -> (d | Word.wrap x) -> (d | x).
Proof.
  intros Hm Hx. rewrite (Z.div_mod x Word.modulus) by discriminate.
  apply Z.divide_add_r; [apply Z.divide_mul_l; exact Hm | exact Hx].
Qed.

Lemma pow2_divides_modulus x : pow2 x -> (x | Word.modulus).
Proof.
  intros (k & Hk & ->). exists (2 ^ (64 - k)).
  rewrite <- Z.pow_add_r by lia. unfold Word.modulus. f_equal. lia.
Qed.

Lemma pow2_pos x : pow2 x -> 0 < x < Word.modulus.
Proof.
  intros (k & Hk & ->). unfold Word.modulus. split.
  - apply Z.pow_pos_nonneg; lia.
  - apply Z.pow_lt_mono_r; lia.
Qed.

Lemma testbit_top x k :
  0 <= k -> 0 <= x < 2 ^ (k + 1) -> Z.testbit x k = (2 ^ k <=? x).
Proof.
  intros Hk Hx. rewrite Z.pow_add_r, Z.pow_1_r in Hx by lia.
  assert (Hp : 0 < 2 ^ k) by (apply Z.pow_pos_nonneg; lia).
  destruct (Z.leb_spec (2 ^ k) x) as [Hle|Hlt].
  - apply Z.testbit_true; [lia|].
    assert (x / 2 ^ k = 1) as ->; [|reflexivity].
    symmetry. apply (Z.div_unique x (2 ^ k) 1 (x - 2 ^ k)); lia.
  - apply Z.testbit_false; [lia|]. rewrite Z.div_small by lia. reflexivity.
Qed.

Lemma clz_from_log2 n x :
  0 < x < 2 ^ Z.of_nat n -> Word.clz_from n x = Z.of_nat n - 1 - Z.log2 x.
Proof.
  induction n as [|n IH]; intros Hx.
  - simpl in Hx. lia.
  - cbn [Word.clz_from]. rewrite Nat2Z.inj_succ in *. unfold Z.succ in *.
    rewrite testbit_top by lia.
    destruct (Z.leb_spec (2 ^ Z.of_nat n) x) as [Hle|Hlt].
    + rewrite (Z.log2_unique x (Z.of_nat n)); lia.
    + rewrite IH by lia. lia.
Qed.

Lemma clzl_log2 x : 0 < x < Word.modulus -> Word.clzl x = 63 - Z.log2 x.
Proof. intros Hx. unfold Word.clzl. rewrite clz_from_log2; [lia | exact Hx]. Qed.

Lemma freelist_index_log2 s :
  0 < s < Word.modulus -> freelist_index s = Z.log2 s - 1.
Proof.
  intros Hs. unfold freelist_index, GET_LIST, FREELISTS_N.
  rewrite clzl_log2 by exact Hs. lia.
Qed.

Lemma not_pred_pow2_low k n :
  0 <= n < k -> k < 64 -> Z.testbit (Word.not (Word.sub (2 ^ k) 1)) n = false.
Proof.
  intros Hn Hk. unfold Word.not, Word.sub.
  assert (Hr : 0 <= 2 ^ k - 1 < Word.modulus).
  { pose proof (pow2_pos (2 ^ k)) as Hp.
    destruct Hp as [? ?]; [exists k; split; [lia | reflexivity] | lia]. }
  rewrite (wrap_small _ Hr). unfold Word.wrap, Word.modulus.
  rewrite Z.mod_pow2_bits_low by lia.
  rewrite Z.lnot_spec by lia.
  replace (2 ^ k - 1) with (Z.ones k) by (rewrite Z.ones_equiv; lia).
  rewrite Z.ones_spec_low by lia. reflexivity.
Qed.

(** VMEM_ALIGNUP yields a multiple of a power-of-two alignment. *)
Lemma VMEM_ALIGNUP_divide addr align :
  pow2 align -> (align | VMEM_ALIGNUP addr align).
Proof.
  intros (k & Hk & ->). unfold VMEM_ALIGNUP.
  apply Z.mod_divide; [apply Z.pow_nonzero; lia|].
  apply Z.bits_inj'. intros n Hn. rewrite Z.bits_0.
  destruct (Z.ltb_spec n k) as [Hlt|Hge].
  - rewrite Z.mod_pow2_bits_low by lia.
    rewrite Z.land_spec, not_pred_pow2_low by lia.
    apply andb_false_r.
  - apply Z.mod_pow2_bits_high. lia.
Qed.

(** ** Inversion of the outcome monad *)

Lemma bind_Done {A B} (m : outcome A) (f : A -> outcome B) (b : B) :
  m ≫= f = Done b -> exists a, m = Done a /\ f a = Done b.
Proof. destruct m; cbn; intros H; try discriminate. eauto. Qed.

Lemma ASSERT_Done b u : ASSERT b = Done u -> b = true.
Proof. destruct b; [reflexivity | discriminate]. Qed.

Lemma defined_Done {A} (o : option A) a : defined o = Done a -> o = Some a.
Proof. destruct o; cbn; congruence. Qed.

Lemma load_Done vm p s : load vm p = Done s -> store vm !! p = Some s.
Proof. apply defined_Done. Qed.

(** Split the first bind of a hypothesis that says a call returned. *)
Ltac bind_as H a Ha :=
  apply bind_Done in H; destruct H as (a & Ha & H).

(** ** seg_fit *)

Lemma seg_fit_Done seg size align phase nocross minaddr maxaddr start :
  seg_fit seg size align phase nocross minaddr maxaddr = Done (Some start) ->
  let s0 := Word.add (VMEM_ALIGNUP (Word.sub (Z.min (seg_base seg) minaddr) phase) align)
                     phase in
  0 < size /\ size <= seg_size seg /\ nocross = 0 /\
  start = (if s0 <? seg_base seg then Word.add s0 align else s0).
Proof.
  unfold seg_fit. intros H.
  bind_as H u1 Hpos. apply ASSERT_Done in Hpos.
  bind_as H u2 Hsize. apply ASSERT_Done in Hsize.
  destruct (_ <? _) in H; [discriminate|].
  bind_as H u3 Hcross. apply ASSERT_Done in Hcross.
  destruct (_ && _) in H; [|discriminate].
  injection H as <-. cbn zeta. repeat split; lia.
Qed.

Lemma divide_wrap_sub d x y :
  (d | Word.modulus) -> (d | x - y) -> (d | Word.wrap x - y).
Proof.
  intros Hm H. unfold Word.wrap. rewrite Z.mod_eq by discriminate.
  replace (x - Word.modulus * (x / Word.modulus) - y)
    with ((x - y) - Word.modulus * (x / Word.modulus)) by lia.
  apply Z.divide_sub_r; [exact H | apply Z.divide_mul_l; exact Hm].
Qed.

(** The start address [seg_fit] settles on is congruent to [phase] modulo a
    power-of-two alignment, also after the advance by [align]. *)
Lemma seg_fit_phase seg size align phase nocross minaddr maxaddr start :
  pow2 align ->
  seg_fit seg size align phase nocross minaddr maxaddr = Done (Some start) ->
  (align | start - phase) /\ 0 <= start < Word.modulus.
Proof.
  intros Hp H. apply seg_fit_Done in H. cbn zeta in H.
  destruct H as (_ & _ & _ & ->).
  pose proof (pow2_divides_modulus _ Hp) as Hm.
  set (a := VMEM_ALIGNUP _ align).
  assert (Ha : (align | a)) by (apply VMEM_ALIGNUP_divide; exact Hp).
  assert (H0 : (align | Word.add a phase - phase)).
  { unfold Word.add. apply divide_wrap_sub; [exact Hm|].
    replace (a + phase - phase) with a by lia. exact Ha. }
  destruct (_ <? _).
  - split; [|apply wrap_range].
    unfold Word.add at 1. apply divide_wrap_sub; [exact Hm|].
    replace (Word.add a phase + align - phase)
      with ((Word.add a phase - phase) + align) by lia.
    apply Z.divide_add_r; [exact H0 | apply Z.divide_refl].
  - split; [exact H0 | apply wrap_range].
Qed.

(** ** The search *)

Section Search.

Variables (size align phase nocross minaddr maxaddr : Z).

Lemma instantfit_scan_Some vm lists p start :
  instantfit_scan size align phase nocross minaddr maxaddr vm lists = Done (Some (p, start)) ->
  exists s, store vm !! p = Some s /\
            seg_fit s size align phase nocross minaddr maxaddr = Done (Some start).
Proof.
  induction lists as [|l rest IH]; cbn; [discriminate|].
  destruct l as [|q l']; [exact IH|]. intros H.
  bind_as H s Hs. apply load_Done in Hs. bind_as H r Hfit.
  destruct r as [st|]; [|exact (IH H)].
  injection H as <- <-. eauto.
Qed.

Lemma bestfit_list_None vm l :
  bestfit_list size align phase nocross minaddr maxaddr vm l = Done None ->
  forall q, q ∈ l -> ~ fits (store vm) size align phase nocross minaddr maxaddr q.
Proof.
  induction l as [|p rest IH]; cbn; intros H q Hq.
  - apply elem_of_nil in Hq. contradiction.
  - bind_as H s Hs. apply load_Done in Hs.
    assert (Hp : ~ fits (store vm) size align phase nocross minaddr maxaddr p /\
                 bestfit_list size align phase nocross minaddr maxaddr vm rest = Done None).
    { destruct (Z.leb_spec size (seg_size s)) as [Hle|Hgt].
      - bind_as H r Hr. destruct r; [discriminate|]. split; [|exact H].
        intros (st & s' & Hs' & _ & Hfit). congruence.
      - split; [|exact H]. intros (st & s' & Hs' & Hle & _).
        assert (s' = s) by congruence. subst. lia. }
    destruct Hp as [Hp Hrest].
    apply elem_of_cons in Hq as [->|Hq]; [exact Hp | exact (IH Hrest q Hq)].
Qed.

Lemma bestfit_list_Some vm l p start :
  bestfit_list size align phase nocross minaddr maxaddr vm l = Done (Some (p, start)) ->
  exists pre post, l = pre ++ p :: post /\
    fits_at (store vm) size align phase nocross minaddr maxaddr p start /\
    forall q, q ∈ pre -> ~ fits (store vm) size align phase nocross minaddr maxaddr q.
Proof.
  induction l as [|x rest IH]; cbn; [discriminate|]. intros H.
  bind_as H s Hs. apply load_Done in Hs.
  assert (Hcase : (x = p /\ size <= seg_size s /\
                   seg_fit s size align phase nocross minaddr maxaddr = Done (Some start)) \/
                  (~ fits (store vm) size align phase nocross minaddr maxaddr x /\
                   bestfit_list size align phase nocross minaddr maxaddr vm rest
                   = Done (Some (p, start)))).
  { destruct (Z.leb_spec size (seg_size s)) as [Hle|Hgt].
    - bind_as H r Hr. destruct r as [st|].
      + injection H as <- <-. left. auto.
      + right. split; [|exact H].
        intros (st & s' & Hs' & _ & Hfit). congruence.
    - right. split; [|exact H]. intros (st & s' & Hs' & Hle & _).
      assert (s' = s) by congruence. subst. lia. }
  destruct Hcase as [(-> & Hle & Hfit)|[Hx Hrest]].
  - exists [], rest. split; [reflexivity|]. split; [exists s; auto|].
    intros q Hq. apply elem_of_nil in Hq. contradiction.
  - destruct (IH Hrest) as (pre & post & -> & Hp & Hpre).
    exists (x :: pre), post. split; [reflexivity|]. split; [exact Hp|].
    intros q Hq. apply elem_of_cons in Hq as [->|Hq]; auto.
Qed.

(** The best-fit scan stops at the first candidate it meets. *)
Lemma bestfit_scan_first_fit vm lists p start :
  bestfit_scan size align phase nocross minaddr maxaddr vm lists = Done (Some (p, start)) ->
  first_fit (store vm) size align phase nocross minaddr maxaddr lists p start.
Proof.
  induction lists as [|l rest IH]; cbn; [discriminate|]. intros H.
  bind_as H r Hl. destruct r as [[p' start']|].
  - injection H as -> ->.
    destruct (bestfit_list_Some _ _ _ _ Hl) as (pre & post & -> & Hp & Hpre).
    exists 0%nat, pre, post. split; [reflexivity|]. split; [exact Hp|].
    split; [|exact Hpre]. intros j l q Hj. lia.
  - destruct (IH H) as (i & pre & post & Hi & Hp & Hlow & Hpre).
    exists (S i), pre, post. split; [exact Hi|]. split; [exact Hp|].
    split; [|exact Hpre]. intros j l' q Hj Hl' Hq.
    destruct j as [|j].
    + cbn in Hl'. injection Hl' as <-. exact (bestfit_list_None _ _ Hl q Hq).
    + cbn in Hl'. apply (Hlow j l' q); [lia | exact Hl' | exact Hq].
Qed.

(** The loop leaves only through [found], with what the turn found. *)
Lemma xalloc_search_Done fuel vm first vmflag found :
  xalloc_search size align phase nocross minaddr maxaddr fuel vm first vmflag = Done found ->
  xalloc_turn size align phase nocross minaddr maxaddr vm first vmflag = Done (Some found).
Proof.
  induction fuel as [|fuel IH]; cbn; [discriminate|]. intros H.
  bind_as H r Hturn. destruct r as [x|].
  - injection H as ->. exact Hturn.
  - exact (IH H).
Qed.

(** A turn that finds nothing is repeated for ever. *)
Lemma xalloc_search_Spin fuel vm first vmflag :
  xalloc_turn size align phase nocross minaddr maxaddr vm first vmflag = Done None ->
  xalloc_search size align phase nocross minaddr maxaddr fuel vm first vmflag = Spin.
Proof.
  intros H. induction fuel as [|fuel IH]; cbn; [reflexivity|].
  rewrite H. cbn. exact IH.
Qed.

End Search.

(** ** The code after [found] *)

(** The list and queue operations leave the records and the quantum alone. *)
Lemma vmem_add_to_freelist_records vm p vm' :
  vmem_add_to_freelist vm p = Done vm' -> same_records vm vm'.
Proof.
  unfold vmem_add_to_freelist. intros H.
  bind_as H s Hs. bind_as H i Hi. bind_as H bucket Hb.
  injection H as <-. split; reflexivity.
Qed.

Lemma vmem_insert_segment_records vm p prev vm' :
  vmem_insert_segment vm p prev = Done vm' -> same_records vm vm'.
Proof.
  unfold vmem_insert_segment. intros H.
  bind_as H prev' Hprev. bind_as H q Hq.
  injection H as <-. split; reflexivity.
Qed.

Lemma hashtab_insert_records vm p vm' :
  hashtab_insert vm p = Done vm' -> same_records vm vm'.
Proof.
  unfold hashtab_insert. intros H.
  bind_as H s Hs. bind_as H i Hi. bind_as H bucket Hb.
  injection H as <-. split; reflexivity.
Qed.

Lemma xalloc_tail_split_addr vm seg new_seg s size a vm' :
  xalloc_tail_split vm seg new_seg s size = Done (a, vm') -> a = seg_base s.
Proof.
  unfold xalloc_tail_split. intros H. destruct (_ && _).
  - bind_as H vma Ha. bind_as H vmb Hb. bind_as H vmc Hc. bind_as H u Hu.
    injection H as <- _. reflexivity.
  - bind_as H vma Ha. bind_as H u Hu. injection H as <- _. reflexivity.
Qed.

(** [ret] is the address [seg_fit] chose. *)
Lemma xalloc_found_addr vm seg new_seg new_seg2 start size a vm' :
  xalloc_found vm seg new_seg new_seg2 start size = Done (a, vm') -> a = start.
Proof.
  unfold xalloc_found. intros H.
  bind_as H s Hs. bind_as H u1 Hfree. bind_as H u2 Hsize.
  bind_as H r Hhead. destruct r as [s1 vm1].
  bind_as H u3 Hbase. apply ASSERT_Done, Z.eqb_eq in Hbase.
  apply xalloc_tail_split_addr in H. congruence.
Qed.

(** What a returning [vmem_xalloc] went through. *)
Lemma vmem_xalloc_Done fuel vm size align phase nocross minaddr maxaddr vmflag a vm' :
  vmem_xalloc fuel vm size align phase nocross minaddr maxaddr vmflag = Done (a, vm') ->
  exists first seg vm1,
    freelist_for_size vm size = Done first /\
    store vm1 = store vm /\ freelist vm1 = freelist vm /\ quantum vm1 = quantum vm /\
    xalloc_turn size (effective_align vm align) phase nocross minaddr maxaddr
                vm1 first vmflag = Done (Some (seg, a)) /\
    xalloc_found vm1 seg (brk vm) (S (brk vm)) a size = Done (a, vm').
Proof.
  unfold vmem_xalloc. intros H.
  bind_as H fl Hfirst. bind_as H u Hcross. cbn in H.
  bind_as H r Hsearch. destruct r as [seg start].
  pose proof (xalloc_found_addr _ _ _ _ _ _ _ _ H) as ->.
  apply xalloc_search_Done in Hsearch.
  eexists fl, seg, _. split; [exact Hfirst|].
  split; [|split; [|split; [|split; [exact Hsearch | exact H]]]]; reflexivity.
Qed.

Lemma xalloc_turn_fit size align phase nocross minaddr maxaddr vm fl vmflag seg start :
  xalloc_turn size align phase nocross minaddr maxaddr vm fl vmflag
  = Done (Some (seg, start)) ->
  exists s, store vm !! seg = Some s /\
            seg_fit s size align phase nocross minaddr maxaddr = Done (Some start).
Proof.
  unfold xalloc_turn. intros H.
  destruct (VM_INSTANTFIT vmflag).
  - exact (instantfit_scan_Some _ _ _ _ _ _ _ _ _ _ H).
  - destruct (VM_BESTFIT vmflag); [|discriminate].
    apply bestfit_scan_first_fit in H.
    destruct H as (_ & _ & _ & _ & (s & Hs & _ & Hfit) & _). eauto.
Qed.

(** ** Quantum granularity *)

Lemma granular_lookup vm p s :
  granular vm -> store vm !! p = Some s -> seg_type s <> SEGMENT_SPAN ->
  good_record (quantum vm) s.
Proof. intros Hg Hs Ht. exact (Hg p s Hs Ht). Qed.

Lemma granular_write vm vm' p s :
  quantum vm' = quantum vm -> store vm' = <[p := s]> (store vm) ->
  good_record (quantum vm) s -> granular vm -> granular vm'.
Proof.
  intros Hq Hst Hs Hg. unfold granular. rewrite Hq, Hst.
  apply map_Forall_insert_2; [intros _; exact Hs | exact Hg].
Qed.

Lemma granular_same vm vm' : same_records vm vm' -> granular vm -> granular vm'.
Proof. intros [Hst Hq] Hg. unfold granular. rewrite Hq, Hst. exact Hg. Qed.

Lemma granular_quantum_sized vm : granular vm -> quantum_sized vm.
Proof.
  intros Hg p s Hs Ht. destruct (Hg p s Hs Ht) as (_ & (Hpos & _) & Hdiv).
  split; [exact Hpos | exact Hdiv].
Qed.

Lemma wrap_sub_ne a b :
  0 <= a < Word.modulus -> 0 <= b < Word.modulus -> a <> b ->
  0 < Word.sub a b < Word.modulus.
Proof.
  intros Ha Hb Hne. pose proof (wrap_range (a - b)) as Hr. unfold Word.sub.
  enough (Word.wrap (a - b) <> 0) by lia.
  destruct (Z.lt_ge_cases a b) as [Hlt|Hge].
  - unfold Word.wrap. rewrite <- (Z.mod_add _ 1) by discriminate.
    rewrite Z.mod_small; lia.
  - rewrite wrap_small; lia.
Qed.

(** The leading leftover and the shrunk segment are granular records. *)
Lemma xalloc_head_split_granular vm seg new_seg2 s start s1 vm1 :
  (quantum vm | Word.modulus) ->
  (quantum vm | start) -> 0 <= start < Word.modulus ->
  good_record (quantum vm) s -> granular vm ->
  xalloc_head_split vm seg new_seg2 s start = Done (s1, vm1) ->
  quantum vm1 = quantum vm /\
  (0 <= seg_base s1 < Word.modulus /\ (quantum vm | seg_base s1)) /\
  (0 <= seg_size s1 < Word.modulus /\ (quantum vm | seg_size s1)) /\
  (0 < seg_size s1 -> granular vm1).
Proof.
  intros Hm Hst Hsr Hs Hg. unfold xalloc_head_split.
  destruct Hs as ((Hbr & Hbd) & (Hsr' & Hsd)).
  destruct (Z.eqb_spec (seg_base s) start) as [Heq|Hne]; cbn [negb].
  - intros H. injection H as <- <-. split; [reflexivity|].
    split; [auto|]. split; [split; [lia | exact Hsd]|]. intros _. exact Hg.
  - intros H. bind_as H vma Ha. bind_as H vmb Hb. injection H as <- <-.
    apply vmem_add_to_freelist_records in Ha. destruct Ha as [Ha1 Ha2].
    apply vmem_insert_segment_records in Hb. destruct Hb as [Hb1 Hb2].
    cbn in Ha1, Ha2. cbn [seg_base seg_size].
    set (lead := Word.sub start (seg_base s)) in *.
    set (rest := Word.sub (seg_size s) lead) in *.
    assert (Hlead : 0 < lead < Word.modulus) by (apply wrap_sub_ne; auto).
    assert (Hleadd : (quantum vm | lead))
      by (apply wrap_divide; [exact Hm | apply Z.divide_sub_r; assumption]).
    assert (Hrestd : (quantum vm | rest))
      by (apply wrap_divide; [exact Hm | apply Z.divide_sub_r; assumption]).
    assert (Hrestr : 0 <= rest < Word.modulus) by apply wrap_range.
    split; [congruence|]. split; [auto|]. split; [auto|].
    intros Hpos. unfold granular. rewrite Hb2, Ha2, Hb1, Ha1.
    apply map_Forall_insert_2; [intros _; repeat split; cbn; auto; lia|].
    apply map_Forall_insert_2; [intros _; repeat split; cbn; auto; lia|].
    exact Hg.
Qed.

(** The allocated record and the trailing leftover are granular records. *)
Lemma xalloc_tail_split_granular vm seg new_seg s size a vm' :
  (quantum vm | Word.modulus) -> (quantum vm | size) -> 0 < size ->
  (0 <= seg_base s < Word.modulus /\ (quantum vm | seg_base s)) ->
  (0 <= seg_size s < Word.modulus /\ (quantum vm | seg_size s)) ->
  (0 < seg_size s -> granular vm) ->
  xalloc_tail_split vm seg new_seg s size = Done (a, vm') ->
  granular vm'.
Proof.
  intros Hm Hsz Hpos (Hbr & Hbd) (Hsr & Hsd) Hg. unfold xalloc_tail_split.
  destruct (_ && _) eqn:Hcond.
  - apply andb_true_iff in Hcond as [Hlt Hleft].
    apply Z.ltb_lt in Hlt. apply Z.ltb_lt in Hleft.
    intros H. bind_as H vma Ha. bind_as H vmb Hb. bind_as H vmc Hc.
    bind_as H u Hu. injection H as _ <-.
    apply vmem_add_to_freelist_records in Ha. destruct Ha as [Ha1 Ha2].
    apply vmem_insert_segment_records in Hb. destruct Hb as [Hb1 Hb2].
    apply hashtab_insert_records in Hc. destruct Hc as [Hc1 Hc2].
    cbn in Ha1, Ha2.
    pose proof (wrap_range (quantum vm - 1)) as Hq1.
    pose proof (wrap_range (seg_size s - size)) as Hr.
    pose proof (wrap_range (seg_base s + size)) as Hb'.
    unfold Word.sub in Hleft.
    unfold granular. rewrite Hc2, Hb2, Ha2, Hc1, Hb1, Ha1.
    apply map_Forall_insert_2.
    { intros _. unfold Word.add, Word.sub. repeat split; cbn; try lia.
      - apply wrap_divide; [exact Hm | apply Z.divide_add_r; assumption].
      - apply wrap_divide; [exact Hm | apply Z.divide_sub_r; assumption]. }
    apply map_Forall_insert_2; [intros _; repeat split; cbn; auto; lia|].
    apply Hg. lia.
  - intros H. bind_as H vma Ha. bind_as H u Hu. injection H as _ <-.
    apply ASSERT_Done, Z.leb_le in Hu.
    apply hashtab_insert_records in Ha. destruct Ha as [Ha1 Ha2].
    apply (granular_write vma _ seg
             (mkSeg SEGMENT_ALLOCATED (seg_imported s) (seg_base s) (seg_size s)));
      [reflexivity | reflexivity | |].
    + rewrite Ha2. repeat split; cbn; auto; lia.
    + apply (granular_same vm); [split; assumption | apply Hg; lia].
Qed.

(** A returning [xalloc_found] keeps the arena granular when the request is. *)
Lemma xalloc_found_granular vm seg new_seg new_seg2 start size a vm' :
  (quantum vm | Word.modulus) -> (quantum vm | size) -> 0 < size ->
  (quantum vm | start) -> 0 <= start < Word.modulus ->
  granular vm ->
  xalloc_found vm seg new_seg new_seg2 start size = Done (a, vm') ->
  granular vm'.
Proof.
  intros Hm Hsz Hpos Hstd Hstr Hg. unfold xalloc_found. intros H.
  bind_as H s Hs. bind_as H u1 Hfree. bind_as H u2 Hsize.
  bind_as H r Hhead. destruct r as [s1 vm1]. bind_as H u3 Hbase.
  apply load_Done in Hs. apply ASSERT_Done, bool_decide_eq_true in Hfree.
  assert (Hgood : good_record (quantum vm) s).
  { apply (granular_lookup vm seg); [exact Hg | exact Hs | congruence]. }
  apply xalloc_head_split_granular in Hhead; try assumption.
  destruct Hhead as (Hq1 & Hb1 & Hs1 & Hg1). cbn in Hq1.
  apply (xalloc_tail_split_granular vm1 seg new_seg s1 size a vm');
    rewrite ?Hq1; assumption.
Qed.

(** ** The claims *)

(** *** Alignment and phase *)

Lemma effective_align_pow2 vm align :
  pow2 (quantum vm) -> (align = 0 \/ (pow2 align /\ (quantum vm | align))) ->
  pow2 (effective_align vm align) /\ (quantum vm | effective_align vm align).
Proof.
  intros Hq [->|[Ha Hd]]; unfold effective_align.
  - cbn. split; [exact Hq | apply Z.divide_refl].
  - pose proof (pow2_pos _ Ha). destruct (Z.eqb_spec align 0); [lia|]. auto.
Qed.

(** C9: every address [a] returned by a successful [vmem_xalloc] whose
    alignment ([align], or the quantum when [align] is 0) is a power of two,
    which is the case for every power-of-two multiple of a power-of-two
    quantum, satisfies [(a - phase) mod align = 0], as an integer and as a
    64-bit difference; this covers the start advanced by [align] when the
    aligned start fell below the segment base. *)
Theorem xalloc_alignment_phase
    fuel vm size align phase nocross minaddr maxaddr vmflag a vm' :
  pow2 (effective_align vm align) ->
  vmem_xalloc fuel vm size align phase nocross minaddr maxaddr vmflag = Done (a, vm') ->
  (a - phase) mod effective_align vm align = 0 /\
  Word.sub a phase mod effective_align vm align = 0.
Proof.
  intros Hp H. apply vmem_xalloc_Done in H.
  destruct H as (fl & seg & vm1 & _ & _ & _ & _ & Hturn & _).
  apply xalloc_turn_fit in Hturn. destruct Hturn as (s & _ & Hfit).
  apply (seg_fit_phase _ _ _ _ _ _ _ _ Hp) in Hfit. destruct Hfit as [Hd _].
  pose proof (pow2_pos _ Hp) as Hpos.
  split; apply Z.mod_divide; try lia; [exact Hd|].
  apply wrap_divide; [apply pow2_divides_modulus; exact Hp | exact Hd].
Qed.

Lemma xalloc_alignment_phase_witness :
  (0x100 - 0x100) mod effective_align arena_64k 0x1000 = 0 /\
  Word.sub 0x100 0x100 mod effective_align arena_64k 0x1000 = 0.
Proof.
  apply (xalloc_alignment_phase 1 arena_64k 0x1000 0x1000 0x100 0 0 0 INSTANTFIT 0x100
           arena_64k_split).
  - exists 12. split; [lia | reflexivity].
  - vm_compute. reflexivity.
Defined.

(** *** Quantum granularity *)

(** C8, as the code has it: [vmem_xalloc] does not round the requested size.
    The granularity of the arena is preserved by a successful call whose
    size and phase are multiples of the quantum (a power of two) and whose
    [align] is 0 or a power-of-two multiple of the quantum: afterwards every
    non-span segment still has a base and a size that are multiples of the
    quantum, the size positive. *)
Theorem xalloc_keeps_granularity
    fuel vm size align phase nocross minaddr maxaddr vmflag a vm' :
  pow2 (quantum vm) ->
  (align = 0 \/ (pow2 align /\ (quantum vm | align))) ->
  (quantum vm | size) -> (quantum vm | phase) ->
  granular vm ->
  vmem_xalloc fuel vm size align phase nocross minaddr maxaddr vmflag = Done (a, vm') ->
  granular vm' /\ quantum_sized vm'.
Proof.
  intros Hq Ha Hsz Hph Hg H.
  destruct (effective_align_pow2 vm align Hq Ha) as [Hp Hqa].
  apply vmem_xalloc_Done in H.
  destruct H as (fl & seg & vm1 & _ & Hst & _ & Hq1 & Hturn & Hfound).
  apply xalloc_turn_fit in Hturn. destruct Hturn as (s & _ & Hfit).
  pose proof (seg_fit_Done _ _ _ _ _ _ _ _ Hfit) as (Hpos & _).
  apply (seg_fit_phase _ _ _ _ _ _ _ _ Hp) in Hfit. destruct Hfit as [Hd Hr].
  assert (Hstart : (quantum vm | a)).
  { replace a with ((a - phase) + phase) by lia.
    apply Z.divide_add_r; [|exact Hph]. exact (Z.divide_trans _ _ _ Hqa Hd). }
  assert (Hg' : granular vm').
  { apply (xalloc_found_granular vm1 seg (brk vm) (S (brk vm)) a size a vm');
      rewrite ?Hq1; try assumption.
    - apply pow2_divides_modulus. exact Hq.
    - apply (granular_same vm); [split; assumption | exact Hg]. }
  split; [exact Hg' | apply granular_quantum_sized; exact Hg'].
Qed.

Lemma arena_64k_granular : granular arena_64k.
Proof.
  unfold granular.
  replace (store arena_64k)
    with (<[1%nat := mkSeg SEGMENT_FREE false 0 0x10000]>
            (<[0%nat := mkSeg SEGMENT_SPAN false 0 0x10000]> (∅ : gmap nat VmemSegment)))
    by (vm_compute; reflexivity).
  apply map_Forall_insert_2.
  { intros _. repeat split; cbn; try lia;
      try (exists 0; reflexivity); exists 256; reflexivity. }
  apply map_Forall_insert_2; [intros Ht; exfalso; apply Ht; reflexivity|].
  apply map_Forall_empty.
Qed.

Lemma xalloc_keeps_granularity_witness :
  granular arena_64k_split /\ quantum_sized arena_64k_split.
Proof.
  apply (xalloc_keeps_granularity 1 arena_64k 0x1000 0x1000 0x100 0 0 0 INSTANTFIT 0x100).
  - exists 8. split; [lia | reflexivity].
  - right. split; [exists 12; split; [lia | reflexivity] | exists 16; reflexivity].
  - exists 16. reflexivity.
  - exists 1. reflexivity.
  - exact arena_64k_granular.
  - vm_compute. reflexivity.
Defined.

(** C8, as stated, fails: on the arena [[0, 0x2000)] with quantum 0x1000 the
    request of 0x800 is served unrounded, and the allocated segment and the
    leftover have sizes 0x800 and 0x1800. *)
Lemma xalloc_does_not_round :
  quantum_sized arena_two /\
  exists vm', vmem_xalloc 1 arena_two 0x800 0 0 0 0 0 INSTANTFIT = Done (0, vm') /\
              store vm' !! 2%nat = Some (mkSeg SEGMENT_ALLOCATED false 0 0x800) /\
              ~ quantum_sized vm'.
Proof.
  split.
  - unfold quantum_sized.
    replace (store arena_two)
      with (<[1%nat := mkSeg SEGMENT_FREE false 0 0x2000]>
              (<[0%nat := mkSeg SEGMENT_SPAN false 0 0x2000]> (∅ : gmap nat VmemSegment)))
      by (vm_compute; reflexivity).
    apply map_Forall_insert_2; [intros _; split; [reflexivity | exists 2; reflexivity]|].
    apply map_Forall_insert_2; [intros Ht; exfalso; apply Ht; reflexivity|].
    apply map_Forall_empty.
  - eexists. split; [vm_compute; reflexivity|].
    split; [vm_compute; reflexivity|].
    intros Hq. specialize (Hq 2%nat (mkSeg SEGMENT_ALLOCATED false 0 0x800)).
    destruct Hq as [_ [k Hk]]; [vm_compute; reflexivity | discriminate |].
    cbn in Hk. lia.
Qed.

(** *** add and overlap *)

Lemma bind_not_Abort {A B} (m : outcome A) (f : A -> outcome B) :
  m <> Abort -> (forall a, f a <> Abort) -> m ≫= f <> Abort.
Proof. destruct m; cbn; auto; discriminate. Qed.

Lemma defined_not_Abort {A} (o : option A) : defined o <> Abort.
Proof. destruct o; discriminate. Qed.

Lemma freelist_for_size_not_Abort vm size : freelist_for_size vm size <> Abort.
Proof.
  unfold freelist_for_size. destruct (size =? 0); [discriminate|].
  cbn zeta. destruct (_ && _); discriminate.
Qed.

Lemma vmem_add_to_freelist_not_Abort vm p : vmem_add_to_freelist vm p <> Abort.
Proof.
  unfold vmem_add_to_freelist.
  apply bind_not_Abort; [apply defined_not_Abort|]. intros seg.
  apply bind_not_Abort; [apply freelist_for_size_not_Abort|]. intros i.
  apply bind_not_Abort; [apply defined_not_Abort|]. discriminate.
Qed.

Lemma vmem_insert_segment_not_Abort vm p prev : vmem_insert_segment vm p prev <> Abort.
Proof.
  unfold vmem_insert_segment.
  apply bind_not_Abort; [apply defined_not_Abort|]. intros prev'.
  apply bind_not_Abort; [apply defined_not_Abort|]. discriminate.
Qed.

(** No assertion is checked once [vmem_add] has passed its own. *)
Lemma vmem_add_internal_not_Abort vm base size import :
  vmem_add_internal vm base size import <> Abort.
Proof.
  unfold vmem_add_internal, seg_alloc.
  apply bind_not_Abort; [apply vmem_insert_segment_not_Abort|]. intros vm1.
  apply bind_not_Abort; [apply vmem_add_to_freelist_not_Abort|]. discriminate.
Qed.

(** The queue walk of [vmem_contains] answers whether some record of the
    queue contains the range. *)
Lemma contains_loop_spec vm q start end_ :
  (forall p, p ∈ q -> is_Some (store vm !! p)) ->
  exists b, contains_loop vm q start end_ = Done b /\
    (b = true <-> exists p s, p ∈ q /\ store vm !! p = Some s /\
                              seg_contains s start end_ = true).
Proof.
  induction q as [|x r IH]; intros Hval; cbn.
  - exists false. split; [reflexivity|]. split; [discriminate|].
    intros (p & s & Hp & _). apply elem_of_nil in Hp. contradiction.
  - destruct (Hval x) as [sx Hsx]; [apply elem_of_cons; auto|].
    unfold load. rewrite Hsx. cbn.
    destruct (seg_contains sx start end_) eqn:Hc.
    + exists true. split; [reflexivity|]. split; [|reflexivity].
      intros _. exists x, sx. split; [apply elem_of_cons; auto | auto].
    + destruct IH as (b & Hb & Hiff).
      { intros p Hp. apply Hval. apply elem_of_cons. auto. }
      exists b. split; [exact Hb|]. rewrite Hiff. split.
      * intros (p & s & Hp & Hs & Hps). exists p, s.
        split; [apply elem_of_cons; auto | auto].
      * intros (p & s & Hp & Hs & Hps). apply elem_of_cons in Hp as [->|Hp].
        -- congruence.
        -- exists p, s. auto.
Qed.

(** The assertion of [vmem_add] fires exactly on containment; any other
    outcome is the outcome of [vmem_add_internal]. *)
Lemma vmem_add_Abort_iff vm addr size :
  (forall p, p ∈ segqueue vm -> is_Some (store vm !! p)) ->
  (vmem_add vm addr size = Abort <->
   exists p s, p ∈ segqueue vm /\ store vm !! p = Some s /\
               seg_base s <= addr /\
               Word.add addr size <= Word.add (seg_base s) (seg_size s)) /\
  (vmem_add vm addr size <> Abort ->
   vmem_add vm addr size = vmem_add_internal vm addr size false).
Proof.
  intros Hval. unfold vmem_add, vmem_contains.
  destruct (contains_loop_spec vm (segqueue vm) addr (Word.add addr size) Hval)
    as (b & -> & Hiff).
  assert (Hiff' : b = true <->
     exists p s, p ∈ segqueue vm /\ store vm !! p = Some s /\ seg_base s <= addr /\
                 Word.add addr size <= Word.add (seg_base s) (seg_size s)).
  { rewrite Hiff. unfold seg_contains.
    split; intros (p & s & Hp & Hs & Hc); exists p, s; split; auto; split; auto.
    - apply andb_true_iff in Hc as [H1 H2].
      apply Z.leb_le in H1. apply Z.leb_le in H2. auto.
    - destruct Hc as [H1 H2]. apply andb_true_iff.
      split; apply Z.leb_le; assumption. }
  rewrite <- Hiff'. cbn. destruct b; cbn.
  - split; [split; reflexivity|]. intros H. contradiction.
  - split; [|reflexivity]. split; [|discriminate].
    intros H. exfalso. exact (vmem_add_internal_not_Abort _ _ _ _ H).
Qed.

Lemma arena_two_valid : forall p, p ∈ segqueue arena_two -> is_Some (store arena_two !! p).
Proof.
  intros p Hp. change (segqueue arena_two) with [0%nat; 1%nat] in Hp.
  apply elem_of_cons in Hp as [->|Hp]; [vm_compute; eauto|].
  apply list_elem_of_singleton in Hp as ->. vm_compute. eauto.
Qed.


(** *** Best fit *)

(** X10: what the VM_BESTFIT branch does instead of a best fit: a successful
    [vmem_xalloc] with VM_BESTFIT (and without VM_INSTANTFIT) allocates at the address [seg_fit] gives for the
    first segment, in list order, that is at least as big as the request and
    for which [seg_fit] succeeds, in the lowest list from [freelist_for_size]
    upward that holds such a segment. *)
Theorem bestfit_takes_first_candidate
    fuel vm size align phase nocross minaddr maxaddr vmflag a vm' :
  VM_INSTANTFIT vmflag = false -> VM_BESTFIT vmflag = true ->
  vmem_xalloc fuel vm size align phase nocross minaddr maxaddr vmflag = Done (a, vm') ->
  exists fl seg,
    freelist_for_size vm size = Done fl /\
    first_fit (store vm) size (effective_align vm align) phase nocross minaddr maxaddr
              (drop fl (freelist vm)) seg a.
Proof.
  intros Hi Hb H. apply vmem_xalloc_Done in H.
  destruct H as (fl & seg & vm1 & Hfl & Hst & Hfr & _ & Hturn & _).
  exists fl, seg. split; [exact Hfl|].
  unfold xalloc_turn in Hturn. rewrite Hi, Hb in Hturn.
  apply bestfit_scan_first_fit in Hturn. rewrite Hst, Hfr in Hturn. exact Hturn.
Qed.

Lemma bestfit_takes_first_candidate_witness :
  exists fl seg,
    freelist_for_size arena_two_spans 0x1800 = Done fl /\
    first_fit (store arena_two_spans) 0x1800 (effective_align arena_two_spans 0x2000)
              0 0 0 0 (drop fl (freelist arena_two_spans)) seg 0x2000.
Proof.
  apply (bestfit_takes_first_candidate 1 arena_two_spans 0x1800 0x2000 0 0 0 0 BESTFIT 0x2000
           (arena_of (after (vmem_xalloc 1 arena_two_spans 0x1800 0x2000 0 0 0 0 BESTFIT)))).
  - reflexivity.
  - reflexivity.
  - vm_compute. reflexivity.
Defined.

(** C6 fails on the code: the comment in the VM_BESTFIT branch promises the
    smallest free segment that can satisfy the allocation, but the loop jumps
    to [found] at the first segment that fits.  With free segments of sizes
    0x2000 and 0x3000 in one list, both able to hold 0x1800 bytes aligned to
    0x2000, [vmem_xalloc] settles on the 0x3000 one, which heads the list. *)
Lemma bestfit_not_smallest :
  (exists vm', vmem_xalloc 1 arena_two_spans 0x1800 0x2000 0 0 0 0 BESTFIT
               = Done (0x2000, vm')) /\
  freelist_for_size arena_two_spans 0x1800 = Done 11%nat /\
  bestfit_scan 0x1800 0x2000 0 0 0 0 arena_two_spans arena_two_lists
  = Done (Some (3%nat, 0x2000)) /\
  ~ smallest_fit (store arena_two_spans) 0x1800 0x2000 0 0 0 0 arena_two_lists 3%nat.
Proof.
  split; [eexists; vm_compute; reflexivity|].
  split; [vm_compute; reflexivity|].
  split; [vm_compute; reflexivity|].
  intros (i & l & s & Hi & Hp & _ & Hs & _ & Hmin).
  assert (Hlists : arena_two_lists
                   = [] :: [3%nat; 1%nat] :: replicate 51 []) by (vm_compute; reflexivity).
  rewrite Hlists in Hi. destruct i as [|[|i]].
  - injection Hi as <-. apply elem_of_nil in Hp. contradiction.
  - injection Hi as <-.
    assert (Hs3 : store arena_two_spans !! 3%nat
                  = Some (mkSeg SEGMENT_FREE false 0x2000 0x3000))
      by (vm_compute; reflexivity).
    assert (s = mkSeg SEGMENT_FREE false 0x2000 0x3000) as -> by congruence.
    specialize (Hmin 1%nat (mkSeg SEGMENT_FREE false 0 0x2000)).
    cbn in Hmin. enough (0x3000 <= 0x2000) by lia. apply Hmin.
    + apply elem_of_cons. right. apply elem_of_cons. left. reflexivity.
    + exists 0, (mkSeg SEGMENT_FREE false 0 0x2000).
      split; [vm_compute; reflexivity|]. split; [cbn; lia | vm_compute; reflexivity].
    + vm_compute. reflexivity.
  - change (replicate 51 ([] : list nat) !! i = Some l) in Hi.
    apply lookup_replicate in Hi as [-> _].
    apply elem_of_nil in Hp. contradiction.
Qed.

(** *** The address window *)

(** C1 fails on the code: [seg_fit] takes the minimum of the segment base and
    [minaddr] and the maximum of the segment end and [maxaddr].  For the
    segment [[0x1000, 0x2000)] and the window [[0x2000, 0x3000)], which do not
    meet, [seg_fit] answers 0x1000 and [vmem_xalloc] returns it: the address
    is below [minaddr]. *)
Theorem window_is_not_enforced :
  seg_fit (mkSeg SEGMENT_FREE false 0x1000 0x1000) 0x1000 0x1000 0 0 0x2000 0x3000
  = Done (Some 0x1000) /\
  (exists vm', vmem_xalloc 1 arena_page 0x1000 0 0 0 0x2000 0x3000 INSTANTFIT
               = Done (0x1000, vm')) /\
  0x1000 < 0x2000.
Proof.
  split; [vm_compute; reflexivity|].
  split; [eexists; vm_compute; reflexivity | reflexivity].
Qed.

(** *** Exhaustion *)

(** A call whose first turn of the loop finds no segment never returns. *)
Lemma vmem_xalloc_Spin fuel vm size align phase nocross minaddr maxaddr vmflag fl :
  freelist_for_size vm size = Done fl ->
  nocross = 0 ->
  xalloc_turn size (effective_align vm align) phase nocross minaddr maxaddr
              (snd (seg_alloc (snd (seg_alloc vm)))) fl vmflag = Done None ->
  vmem_xalloc fuel vm size align phase nocross minaddr maxaddr vmflag = Spin.
Proof.
  intros Hfl -> Hturn. unfold vmem_xalloc. rewrite Hfl. cbn.
  cbn in Hturn. unfold effective_align in Hturn.
  rewrite (xalloc_search_Spin _ _ _ _ _ _ fuel _ _ _ Hturn). reflexivity.
Qed.

(** C2 fails on the code: the [while (true)] loop of [vmem_xalloc] has no
    exit but [goto found].  On the arena [[0, 0x1000)] with quantum 0x1000
    and no source, the first allocation of 0x1000 returns 0 and the second
    identical call is still in the loop after any number of turns. *)
Theorem exhausted_arena_never_returns :
  source arena_one = false /\
  (exists vm', vmem_xalloc 1 arena_one 0x1000 0 0 0 0 0 INSTANTFIT = Done (0, vm') /\
               arena_one_full = vm') /\
  forall fuel, vmem_xalloc fuel arena_one_full 0x1000 0 0 0 0 0 INSTANTFIT = Spin.
Proof.
  split; [reflexivity|].
  split; [eexists; split; vm_compute; reflexivity|].
  intros fuel. apply (vmem_xalloc_Spin fuel arena_one_full 0x1000 0 0 0 0 0 INSTANTFIT 11%nat).
  - vm_compute. reflexivity.
  - reflexivity.
  - vm_compute. reflexivity.
Qed.

(** *** Round trip *)

(** C3 fails on the code: on the arena [[0x3000, 0x6000)] with quantum 0x1000
    two successive allocations, of 0x1000 and of 0x2000, both return the
    address 0x1000, which is outside the span.  Freeing the first one finds
    the second record under that address and stops on the size assertion;
    freeing in the other order restores the single free segment. *)
Theorem roundtrip_same_address_twice :
  exists vm1 vm2,
    vmem_alloc 1 arena_high 0x1000 INSTANTFIT = Done (0x1000, vm1) /\
    vmem_alloc 1 vm1 0x2000 INSTANTFIT = Done (0x1000, vm2) /\
    store vm2 !! 2%nat = Some (mkSeg SEGMENT_ALLOCATED false 0x1000 0x1000) /\
    store vm2 !! 4%nat = Some (mkSeg SEGMENT_ALLOCATED false 0x1000 0x2000) /\
    vmem_free vm2 0x1000 0x1000 = Abort /\
    exists vm3 vm4,
      vmem_free vm2 0x1000 0x2000 = Done vm3 /\
      vmem_free vm3 0x1000 0x1000 = Done vm4 /\
      map (fun p => store vm4 !! p) (segqueue vm4)
      = [Some (mkSeg SEGMENT_SPAN false 0x3000 0x3000);
         Some (mkSeg SEGMENT_FREE false 0x3000 0x3000)].
Proof.
  eexists. eexists. split; [vm_compute; reflexivity|].
  split; [vm_compute; reflexivity|].
  split; [vm_compute; reflexivity|].
  split; [vm_compute; reflexivity|].
  split; [vm_compute; reflexivity|].
  eexists. eexists. split; [vm_compute; reflexivity|].
  split; vm_compute; reflexivity.
Qed.

(** *** Free-list buckets *)

(** C4 fails on the code: [vmem_add_to_freelist] puts a segment of size [s]
    at the head of list [floor(log2 s) - 1], one below the list the comment
    on GET_LIST computes; a segment of size 4096 goes to list 11. *)
Theorem freelist_bucket_is_one_below vm p s vm' :
  store vm !! p = Some s -> 0 < seg_size s < Word.modulus ->
  vmem_add_to_freelist vm p = Done vm' ->
  exists i bucket,
    Z.of_nat i = Z.log2 (seg_size s) - 1 /\ Z.of_nat i <> Z.log2 (seg_size s) /\
    freelist vm !! i = Some bucket /\
    freelist vm' = <[i := p :: bucket]> (freelist vm).
Proof.
  intros Hs Hr. unfold vmem_add_to_freelist, load. rewrite Hs. cbn.
  intros H. bind_as H i Hi. bind_as H bucket Hb. injection H as <-.
  apply defined_Done in Hb. exists i, bucket.
  unfold freelist_for_size in Hi. destruct (seg_size s =? 0); [discriminate|].
  cbn zeta in Hi. destruct (_ && _) eqn:Hc; [|discriminate].
  injection Hi as <-. apply andb_true_iff in Hc as [Hlo _]. apply Z.leb_le in Hlo.
  rewrite (freelist_index_log2 _ Hr) in *. rewrite Z2Nat.id by exact Hlo.
  split; [reflexivity|]. split; [lia|]. split; [exact Hb | reflexivity].
Qed.

Lemma freelist_bucket_is_one_below_witness :
  exists i bucket,
    Z.of_nat i = Z.log2 0x1000 - 1 /\ Z.of_nat i <> Z.log2 0x1000 /\
    freelist arena_one_full !! i = Some bucket /\
    freelist (arena_of (vmem_add_to_freelist arena_one_full 0%nat))
    = <[i := 0%nat :: bucket]> (freelist arena_one_full).
Proof.
  apply (freelist_bucket_is_one_below arena_one_full 0%nat
           (mkSeg SEGMENT_SPAN false 0 0x1000)).
  - vm_compute. reflexivity.
  - cbn. unfold Word.modulus. lia.
  - vm_compute. reflexivity.
Defined.

Example freelist_index_4096 : freelist_index 4096 = 11 /\ GET_LIST 4096 = 12.
Proof. split; reflexivity. Qed.

(** *** Instant fit *)

(** C5 fails on the code: on the arena [[0, 0x1000)] with quantum 0x800 the
    list [freelist_for_size] gives for a request of 0x1800 is headed by the
    free segment of size 0x1000, and VM_INSTANTFIT hands it to [seg_fit],
    whose assertion [segment->size >= size] fails. *)
Theorem instantfit_meets_small_segment :
  (exists fl l, freelist_for_size arena_half 0x1800 = Done fl /\
                freelist arena_half !! fl = Some (1%nat :: l) /\
                store arena_half !! 1%nat = Some (mkSeg SEGMENT_FREE false 0 0x1000)) /\
  seg_fit (mkSeg SEGMENT_FREE false 0 0x1000) 0x1800 0x800 0 0 0 0 = Abort /\
  vmem_xalloc 1 arena_half 0x1800 0 0 0 0 0 INSTANTFIT = Abort.
Proof.
  split; [eexists; eexists; split; [|split]; vm_compute; reflexivity|].
  split; vm_compute; reflexivity.
Qed.

(** *** Index bounds *)

Lemma freelist_index_bounds s :
  2 <= s < Word.modulus -> 0 <= freelist_index s < FREELISTS_N.
Proof.
  intros Hs. rewrite freelist_index_log2 by lia.
  assert (1 <= Z.log2 s) by (apply Z.log2_le_pow2; cbn; lia).
  assert (Z.log2 s < 64) by (apply Z.log2_lt_pow2; unfold Word.modulus in Hs; lia).
  unfold FREELISTS_N. lia.
Qed.

(** C10 fails on the code: for size 1 the index [FREELISTS_N - clzl(1) - 2]
    is -1, so [freelist_for_size] points before the array, and creating an
    arena of one unit with quantum 1 writes there. *)
Theorem freelist_index_of_one :
  Word.clzl 1 = 63 /\ freelist_index 1 = -1 /\
  (forall vm, freelist_for_size vm 1 = Undefined) /\
  vmem_create 16 0 1 1 false = Undefined.
Proof.
  split; [reflexivity|]. split; [reflexivity|].
  split; [intros vm; reflexivity | vm_compute; reflexivity].
Qed.

(** ** Further properties of the code *)

(** *** Size classes *)

Lemma freelist_for_size_Done vm s :
  length (freelist vm) = 64%nat -> 2 <= s < Word.modulus ->
  exists i, freelist_for_size vm s = Done i /\ (i < 63)%nat /\
            2 ^ (Z.of_nat i + 1) <= s < 2 ^ (Z.of_nat i + 2).
Proof.
  intros Hl Hs. pose proof (freelist_index_bounds s Hs) as Hb.
  pose proof (freelist_index_log2 s ltac:(lia)) as Hi.
  assert (Hlog : Z.log2 s < 64)
    by (apply Z.log2_lt_pow2; unfold Word.modulus in Hs; lia).
  exists (Z.to_nat (freelist_index s)).
  unfold freelist_for_size. rewrite Hl.
  destruct (Z.eqb_spec s 0) as [?|_]; [lia|]. cbn zeta.
  destruct (Z.leb_spec 0 (freelist_index s)); [|lia].
  destruct (Z.ltb_spec (freelist_index s) (Z.of_nat 64)); [|unfold FREELISTS_N in Hb; lia].
  cbn [andb]. split; [reflexivity|]. split; [lia|].
  rewrite Z2Nat.id by lia. rewrite Hi.
  replace (Z.log2 s - 1 + 1) with (Z.log2 s) by lia.
  replace (Z.log2 s - 1 + 2) with (Z.succ (Z.log2 s)) by lia.
  apply Z.log2_spec. lia.
Qed.

(** X1: for every size from 2 up, [freelist_for_size] stays inside an array of
    64 lists, and list [i] is the class of the sizes in
    [[2^(i+1), 2^(i+2))]; the last list is never used. *)
Theorem freelist_for_size_class vm s :
  length (freelist vm) = 64%nat -> 2 <= s < Word.modulus ->
  exists i, freelist_for_size vm s = Done i /\ (i < 63)%nat /\
            2 ^ (Z.of_nat i + 1) <= s < 2 ^ (Z.of_nat i + 2).
Proof. exact (freelist_for_size_Done vm s). Qed.

Lemma freelist_for_size_class_witness :
  exists i, freelist_for_size arena_one 0x1800 = Done i /\ (i < 63)%nat /\
            2 ^ (Z.of_nat i + 1) <= 0x1800 < 2 ^ (Z.of_nat i + 2).
Proof.
  apply (freelist_for_size_class arena_one 0x1800).
  - reflexivity.
  - unfold Word.modulus. lia.
Defined.

(** *** VMEM_ALIGNUP *)

Lemma testbit_above_word y n :
  0 <= y < Word.modulus -> 64 <= n -> Z.testbit y n = false.
Proof.
  intros Hy Hn. rewrite <- (Z.mod_small y (2 ^ 64)) by exact Hy.
  apply Z.mod_pow2_bits_high. lia.
Qed.

Lemma not_pred_pow2_high k n :
  0 <= k <= n -> n < 64 -> Z.testbit (Word.not (Word.sub (2 ^ k) 1)) n = true.
Proof.
  intros Hn Hk. unfold Word.not, Word.sub.
  assert (Hr : 0 <= 2 ^ k - 1 < Word.modulus).
  { pose proof (pow2_pos (2 ^ k)) as Hp.
    destruct Hp as [? ?]; [exists k; split; [lia | reflexivity] | lia]. }
  rewrite (wrap_small _ Hr). unfold Word.wrap, Word.modulus.
  rewrite Z.mod_pow2_bits_low by lia.
  rewrite Z.lnot_spec by lia.
  replace (2 ^ k - 1) with (Z.ones k) by (rewrite Z.ones_equiv; lia).
  rewrite Z.ones_spec_high by lia. reflexivity.
Qed.

(** Masking a word with [~(2^k - 1)] clears its [k] low bits. *)
Lemma land_not_pred_pow2 y k :
  0 <= y < Word.modulus -> 0 <= k < 64 ->
  Z.land y (Word.not (Word.sub (2 ^ k) 1)) = 2 ^ k * (y / 2 ^ k).
Proof.
  intros Hy Hk. apply Z.bits_inj'. intros n Hn.
  rewrite Z.land_spec, (Z.mul_comm (2 ^ k)).
  destruct (Z.ltb_spec n k) as [Hlt|Hge].
  - rewrite not_pred_pow2_low, Z.mul_pow2_bits_low by lia. apply andb_false_r.
  - rewrite Z.mul_pow2_bits, Z.div_pow2_bits by lia.
    replace (n - k + k) with n by lia.
    destruct (Z.ltb_spec n 64) as [Hlo|Hhi].
    + rewrite not_pred_pow2_high by lia. apply andb_true_r.
    + rewrite (testbit_above_word y n) by lia. reflexivity.
Qed.

Lemma VMEM_ALIGNUP_eq addr align k :
  0 <= k < 64 -> align = 2 ^ k ->
  VMEM_ALIGNUP addr align = align * (Word.wrap (addr + align - 1) / align).
Proof.
  intros Hk ->. unfold VMEM_ALIGNUP.
  assert (Hy : Word.sub (Word.add addr (2 ^ k)) 1 = Word.wrap (addr + 2 ^ k - 1)).
  { unfold Word.sub, Word.add, Word.wrap. apply Zminus_mod_idemp_l. }
  rewrite Hy. apply land_not_pred_pow2; [apply wrap_range | exact Hk].
Qed.

Lemma VMEM_ALIGNUP_spec addr align :
  pow2 align -> 0 <= addr -> addr + align - 1 < Word.modulus ->
  addr <= VMEM_ALIGNUP addr align < addr + align /\
  (align | VMEM_ALIGNUP addr align) /\
  forall m, (align | m) -> addr <= m -> VMEM_ALIGNUP addr align <= m.
Proof.
  intros Hp Ha Hfit. pose proof (pow2_pos _ Hp) as Hpos.
  destruct Hp as (k & Hk & Hal).
  rewrite (VMEM_ALIGNUP_eq addr align k Hk Hal).
  rewrite wrap_small by lia.
  pose proof (Z.mod_pos_bound (addr + align - 1) align ltac:(lia)) as Hm.
  pose proof (Z.div_mod (addr + align - 1) align ltac:(lia)) as Hd.
  split; [lia|]. split; [apply Z.divide_factor_l|].
  intros m [c ->] Hle.
  assert (Hc : (addr + align - 1) / align < c + 1).
  { apply Z.div_lt_upper_bound; [lia|]. nia. }
  nia.
Qed.

(** X2: when [addr + align - 1] still fits a word, VMEM_ALIGNUP with a
    power-of-two alignment is the least multiple of [align] that is at least
    [addr]. *)
Theorem VMEM_ALIGNUP_least_multiple addr align :
  pow2 align -> 0 <= addr -> addr + align - 1 < Word.modulus ->
  addr <= VMEM_ALIGNUP addr align < addr + align /\
  (align | VMEM_ALIGNUP addr align) /\
  forall m, (align | m) -> addr <= m -> VMEM_ALIGNUP addr align <= m.
Proof. exact (VMEM_ALIGNUP_spec addr align). Qed.

Lemma VMEM_ALIGNUP_least_multiple_witness :
  0xfc <= VMEM_ALIGNUP 0xfc 0x40 < 0xfc + 0x40 /\
  (0x40 | VMEM_ALIGNUP 0xfc 0x40) /\
  forall m, (0x40 | m) -> 0xfc <= m -> VMEM_ALIGNUP 0xfc 0x40 <= m.
Proof.
  apply (VMEM_ALIGNUP_least_multiple 0xfc 0x40).
  - exists 6. split; [lia | reflexivity].
  - lia.
  - unfold Word.modulus. lia.
Defined.

(** X3: when [addr + align - 1] overflows the word, VMEM_ALIGNUP wraps to 0,
    below [addr]. *)
Theorem VMEM_ALIGNUP_wraps addr align :
  pow2 align -> addr < Word.modulus -> Word.modulus <= addr + align - 1 ->
  VMEM_ALIGNUP addr align = 0.
Proof.
  intros Hp Ha Hover. pose proof (pow2_pos _ Hp) as Hpos.
  destruct Hp as (k & Hk & Hal).
  rewrite (VMEM_ALIGNUP_eq addr align k Hk Hal).
  assert (Hw : Word.wrap (addr + align - 1) = addr + align - 1 - Word.modulus).
  { unfold Word.wrap. symmetry.
    apply (Z.mod_unique _ _ 1); [left|]; lia. }
  rewrite Hw, Z.div_small by lia. lia.
Qed.

Lemma VMEM_ALIGNUP_wraps_witness :
  VMEM_ALIGNUP 0xfffffffffffff001 0x1000 = 0.
Proof.
  apply (VMEM_ALIGNUP_wraps 0xfffffffffffff001 0x1000).
  - exists 12. split; [lia | reflexivity].
  - unfold Word.modulus. lia.
  - unfold Word.modulus. lia.
Defined.

(** *** The hash *)

Lemma xorshift33_range h : 0 <= h < Word.modulus -> 0 <= xorshift33 h < Word.modulus.
Proof.
  intros Hh. unfold xorshift33.
  assert (Hs : 0 <= Z.shiftr h 33) by (apply Z.shiftr_nonneg; lia).
  assert (Hx : 0 <= Z.lxor h (Z.shiftr h 33)) by (apply Z.lxor_nonneg; lia).
  split; [exact Hx|].
  destruct (Z.eq_dec (Z.lxor h (Z.shiftr h 33)) 0) as [->|Hne]; [reflexivity|].
  unfold Word.modulus. apply Z.log2_lt_pow2; [lia|].
  apply Z.nle_gt. intros Hle.
  pose proof (Z.bit_log2 (Z.lxor h (Z.shiftr h 33)) ltac:(lia)) as Hbit.
  rewrite Z.lxor_spec, Z.shiftr_spec in Hbit by (apply Z.log2_nonneg).
  rewrite !(testbit_above_word h) in Hbit by lia. discriminate.
Qed.

(** On a word, [h ^= h >> 33] undoes itself. *)
Lemma xorshift33_involutive h :
  0 <= h < Word.modulus -> xorshift33 (xorshift33 h) = h.
Proof.
  intros Hh. unfold xorshift33. apply Z.bits_inj'. intros n Hn.
  rewrite !Z.lxor_spec, !Z.shiftr_spec, Z.lxor_spec, Z.shiftr_spec by lia.
  rewrite (testbit_above_word h (n + 33 + 33)) by lia.
  destruct (Z.testbit h n), (Z.testbit h (n + 33)); reflexivity.
Qed.

Lemma mul_inverse h c c' :
  0 <= h < Word.modulus -> Word.wrap (c * c') = 1 ->
  Word.mul (Word.mul h c) c' = h.
Proof.
  intros Hh Hc. unfold Word.mul, Word.wrap in *.
  rewrite Z.mul_mod_idemp_l by discriminate.
  rewrite <- Z.mul_assoc, <- Z.mul_mod_idemp_r, Hc by discriminate.
  rewrite Z.mul_1_r. apply Z.mod_small. exact Hh.
Qed.

Lemma mul_range h c : 0 <= Word.mul h c < Word.modulus.
Proof. apply wrap_range. Qed.

Lemma murmur64_range h : 0 <= h < Word.modulus -> 0 <= murmur64 h < Word.modulus.
Proof.
  intros Hh. unfold murmur64.
  apply (xorshift33_range (Word.mul _ _)), mul_range.
Qed.

Lemma unmurmur64_murmur64 h :
  0 <= h < Word.modulus -> unmurmur64 (murmur64 h) = h.
Proof.
  intros Hh. unfold unmurmur64, murmur64.
  change (Z.lxor h (Z.shiftr h 33)) with (xorshift33 h).
  set (x1 := xorshift33 h).
  set (x2 := Word.mul x1 _).
  change (Z.lxor x2 (Z.shiftr x2 33)) with (xorshift33 x2).
  set (x3 := xorshift33 x2).
  set (x4 := Word.mul x3 _).
  change (Z.lxor x4 (Z.shiftr x4 33)) with (xorshift33 x4).
  assert (H1 : 0 <= x1 < Word.modulus) by (apply xorshift33_range; exact Hh).
  assert (H2 : 0 <= x2 < Word.modulus) by apply mul_range.
  assert (H3 : 0 <= x3 < Word.modulus) by (apply xorshift33_range; exact H2).
  assert (H4 : 0 <= x4 < Word.modulus) by apply mul_range.
  cbn zeta.
  rewrite (xorshift33_involutive x4 H4). unfold x4.
  rewrite (mul_inverse x3 _ _ H3) by reflexivity. unfold x3.
  rewrite (xorshift33_involutive x2 H2). unfold x2.
  rewrite (mul_inverse x1 _ _ H1) by reflexivity. unfold x1.
  apply xorshift33_involutive. exact Hh.
Qed.

(** X4: [murmur64] maps words to words and no two words to the same hash: a
    collision in the hash table comes from the reduction modulo the table
    size only. *)
Theorem murmur64_injective a b :
  0 <= a < Word.modulus -> 0 <= b < Word.modulus ->
  (0 <= murmur64 a < Word.modulus) /\ (murmur64 a = murmur64 b -> a = b).
Proof.
  intros Ha Hb. split; [apply murmur64_range; exact Ha|].
  intros H. rewrite <- (unmurmur64_murmur64 a Ha), <- (unmurmur64_murmur64 b Hb).
  f_equal. exact H.
Qed.

Lemma murmur64_injective_witness :
  (0 <= murmur64 0x1000 < Word.modulus) /\ (murmur64 0x1000 = murmur64 0x1000 -> 0x1000 = 0x1000).
Proof.
  apply (murmur64_injective 0x1000 0x1000); unfold Word.modulus; lia.
Defined.

Lemma hashtab_insert_Done vm p s :
  store vm !! p = Some s -> hashtable vm <> [] ->
  exists i bucket,
    Z.of_nat i = murmur64 (seg_base s) mod Z.of_nat (length (hashtable vm)) /\
    hashtable vm !! i = Some bucket /\
    hashtab_insert vm p
    = Done (set_hashtable (<[i := p :: bucket]> (hashtable vm)) vm).
Proof.
  intros Hs Hne. unfold hashtab_insert, load, hashbucket_for_addr. rewrite Hs. cbn.
  assert (Hlen : 0 < Z.of_nat (length (hashtable vm)))
    by (destruct (hashtable vm); [contradiction | cbn; lia]).
  destruct (Z.eqb_spec (Z.of_nat (length (hashtable vm))) 0) as [?|_]; [lia|]. cbn.
  pose proof (Z.mod_pos_bound (murmur64 (seg_base s)) _ Hlen) as Hb.
  set (i := Z.to_nat (murmur64 (seg_base s) mod Z.of_nat (length (hashtable vm)))).
  destruct (lookup_lt_is_Some_2 (hashtable vm) i) as [bucket Hbucket]; [unfold i; lia|].
  exists i, bucket. split; [unfold i; lia|]. split; [exact Hbucket|].
  rewrite Hbucket. reflexivity.
Qed.

(** X5: [hashtab_insert] of a live record into a table that has at least one
    bucket never indexes outside the table: it links the record at the head
    of bucket [murmur64(base) mod length] and touches nothing else. *)
Theorem hashtab_insert_in_bounds vm p s :
  store vm !! p = Some s -> hashtable vm <> [] ->
  exists i bucket,
    Z.of_nat i = murmur64 (seg_base s) mod Z.of_nat (length (hashtable vm)) /\
    hashtable vm !! i = Some bucket /\
    hashtab_insert vm p
    = Done (set_hashtable (<[i := p :: bucket]> (hashtable vm)) vm).
Proof. exact (hashtab_insert_Done vm p s). Qed.

Lemma hashtab_insert_in_bounds_witness :
  exists i bucket,
    Z.of_nat i = murmur64 (seg_base (mkSeg SEGMENT_FREE false 0x1000 0x1000))
                 mod Z.of_nat (length (hashtable arena_page)) /\
    hashtable arena_page !! i = Some bucket /\
    hashtab_insert arena_page 1%nat
    = Done (set_hashtable (<[i := 1%nat :: bucket]> (hashtable arena_page)) arena_page).
Proof.
  apply (hashtab_insert_in_bounds arena_page 1%nat (mkSeg SEGMENT_FREE false 0x1000 0x1000)).
  - vm_compute. reflexivity.
  - discriminate.
Defined.

(** *** seg_fit *)

(** X6: a start address [seg_fit] accepts leaves room for [size] below the
    larger of the segment end and [maxaddr]: the request never runs past
    both. *)
Theorem seg_fit_upper_bound seg size align phase nocross minaddr maxaddr start :
  maxaddr < Word.modulus ->
  seg_fit seg size align phase nocross minaddr maxaddr = Done (Some start) ->
  0 <= start /\
  start + size <= Z.max (Word.add (seg_base seg) (seg_size seg)) maxaddr.
Proof.
  intros Hmax. unfold seg_fit. intros H.
  bind_as H u1 Hpos. bind_as H u2 Hsize.
  set (e := Z.max _ maxaddr) in H |- *.
  set (s0 := Z.min _ minaddr) in H.
  destruct (e <? s0); [discriminate|].
  bind_as H u3 Hcross.
  set (a1 := Word.add (VMEM_ALIGNUP _ _) phase) in H.
  set (st := if a1 <? seg_base seg then Word.add a1 align else a1) in H.
  destruct ((st <=? e) && (size <=? Word.sub e st)) eqn:Hc; [|discriminate].
  injection H as <-. apply andb_true_iff in Hc as [Hle Hroom].
  apply Z.leb_le in Hle. apply Z.leb_le in Hroom.
  assert (Hst : 0 <= st < Word.modulus).
  { unfold st, a1, Word.add. destruct (_ <? seg_base seg); apply wrap_range. }
  assert (He : e < Word.modulus).
  { unfold e. pose proof (wrap_range (seg_base seg + seg_size seg)).
    unfold Word.add. lia. }
  unfold Word.sub in Hroom. rewrite wrap_small in Hroom by lia. lia.
Qed.

Lemma seg_fit_upper_bound_witness :
  0 <= 0x100 /\
  0x100 + 0x1000 <= Z.max (Word.add 0 0x10000) 0.
Proof.
  apply (seg_fit_upper_bound (mkSeg SEGMENT_FREE false 0 0x10000)
                             0x1000 0x1000 0x100 0 0 0 0x100).
  - reflexivity.
  - vm_compute. reflexivity.
Defined.

Lemma VMEM_ALIGNUP_zero align : pow2 align -> VMEM_ALIGNUP 0 align = 0.
Proof.
  intros Hp. pose proof (pow2_pos _ Hp) as Hpos.
  destruct (VMEM_ALIGNUP_spec 0 align Hp) as (Hr & [c Hc] & _); [lia..|].
  rewrite Hc in Hr |- *. rewrite Z.add_0_l in Hr.
  assert (c = 0) as -> by nia. reflexivity.
Qed.

Lemma seg_fit_unconstrained seg size align nocross maxaddr start :
  pow2 align -> 0 <= seg_base seg ->
  seg_fit seg size align 0 nocross 0 maxaddr = Done (Some start) ->
  start = if 0 <? seg_base seg then align else 0.
Proof.
  intros Hp Hb H. pose proof (pow2_pos _ Hp) as Hpos.
  apply seg_fit_Done in H. cbn zeta in H. destruct H as (_ & _ & _ & ->).
  rewrite Z.min_r by exact Hb.
  change (Word.sub 0 0) with 0. rewrite (VMEM_ALIGNUP_zero align Hp).
  change (Word.add 0 0) with 0.
  destruct (0 <? seg_base seg); [|reflexivity].
  unfold Word.add. apply wrap_small. lia.
Qed.

(** *** What [vmem_xalloc] returns *)

(** X7: without a phase and without a lower bound, [seg_fit] starts from address
    0 whatever the segment is, and advances by [align] once: a successful
    [vmem_xalloc] with [phase = 0] and [minaddr = 0] returns either 0 or the
    alignment itself, for every arena whose bases are not negative. *)
Theorem xalloc_unconstrained_address
    fuel vm size align nocross maxaddr vmflag a vm' :
  pow2 (effective_align vm align) ->
  map_Forall (fun _ s => 0 <= seg_base s) (store vm) ->
  vmem_xalloc fuel vm size align 0 nocross 0 maxaddr vmflag = Done (a, vm') ->
  a = 0 \/ a = effective_align vm align.
Proof.
  intros Hp Hbases H. apply vmem_xalloc_Done in H.
  destruct H as (fl & seg & vm1 & _ & Hst & _ & _ & Hturn & _).
  apply xalloc_turn_fit in Hturn. destruct Hturn as (s & Hs & Hfit).
  rewrite Hst in Hs.
  apply (seg_fit_unconstrained _ _ _ _ _ _ Hp (Hbases _ _ Hs)) in Hfit.
  destruct (0 <? seg_base s); auto.
Qed.

Lemma arena_high_bases : map_Forall (fun _ s => 0 <= seg_base s) (store arena_high).
Proof.
  replace (store arena_high)
    with (<[1%nat := mkSeg SEGMENT_FREE false 0x3000 0x3000]>
            (<[0%nat := mkSeg SEGMENT_SPAN false 0x3000 0x3000]> (∅ : gmap nat VmemSegment)))
    by (vm_compute; reflexivity).
  apply map_Forall_insert_2; [cbn; lia|].
  apply map_Forall_insert_2; [cbn; lia|]. apply map_Forall_empty.
Qed.

Lemma xalloc_unconstrained_address_witness :
  0x1000 = 0 \/ 0x1000 = effective_align arena_high 0.
Proof.
  apply (xalloc_unconstrained_address 1 arena_high 0x1000 0 0 0 INSTANTFIT 0x1000
           (arena_of (after (vmem_xalloc 1 arena_high 0x1000 0 0 0 0 0 INSTANTFIT)))).
  - exists 12. split; [lia | reflexivity].
  - exact arena_high_bases.
  - vm_compute. reflexivity.
Defined.

(** X8: the outcome of [vmem_xalloc] is decided in the first turn of its loop:
    any positive number of turns gives what one turn gives, an address, a
    failed assertion, or a loop that is still running. *)
Theorem xalloc_first_turn_decides
    fuel vm size align phase nocross minaddr maxaddr vmflag :
  vmem_xalloc (S fuel) vm size align phase nocross minaddr maxaddr vmflag
  = vmem_xalloc 1 vm size align phase nocross minaddr maxaddr vmflag.
Proof.
  unfold vmem_xalloc.
  destruct (freelist_for_size vm size) as [fl| | |]; try reflexivity. cbn.
  destruct (ASSERT (nocross =? 0)); try reflexivity. cbn.
  set (al := if align =? 0 then quantum vm else align).
  set (vm2 := set_brk _ _).
  destruct (xalloc_turn size al phase nocross minaddr maxaddr vm2 fl vmflag)
    as [[found|]| | |] eqn:Hturn; try reflexivity.
  rewrite (xalloc_search_Spin _ _ _ _ _ _ fuel _ _ _ Hturn). reflexivity.
Qed.

Lemma seg_fit_not_Abort seg size align phase minaddr maxaddr :
  0 < size -> size <= seg_size seg ->
  seg_fit seg size align phase 0 minaddr maxaddr <> Abort.
Proof.
  intros Hpos Hle. unfold seg_fit.
  destruct (Z.ltb_spec 0 size); [|lia].
  destruct (Z.leb_spec size (seg_size seg)); [|lia]. cbn.
  destruct (_ <? _); [discriminate|].
  destruct (_ && _); discriminate.
Qed.

Lemma bestfit_list_not_Abort size align phase minaddr maxaddr vm l :
  0 < size -> bestfit_list size align phase 0 minaddr maxaddr vm l <> Abort.
Proof.
  intros Hpos. induction l as [|p rest IH]; cbn; [discriminate|].
  unfold load. destruct (store vm !! p) as [s|]; cbn; [|discriminate].
  destruct (Z.leb_spec size (seg_size s)) as [Hle|Hgt]; [|exact IH].
  pose proof (seg_fit_not_Abort s size align phase minaddr maxaddr Hpos Hle) as Hfit.
  destruct (seg_fit s size align phase 0 minaddr maxaddr) as [[st|]| | |]; cbn;
    try discriminate; [exact IH | contradiction].
Qed.

(** X9: the best-fit turn checks [seg->size >= size] before every call of
    [seg_fit]: for a positive size and [nocross = 0] it never fails an
    assertion, whatever the free lists hold. *)
Theorem bestfit_turn_never_aborts size align phase minaddr maxaddr vm fl vmflag :
  VM_INSTANTFIT vmflag = false -> VM_BESTFIT vmflag = true -> 0 < size ->
  xalloc_turn size align phase 0 minaddr maxaddr vm fl vmflag <> Abort.
Proof.
  intros Hi Hb Hpos. unfold xalloc_turn. rewrite Hi, Hb.
  induction (drop fl (freelist vm)) as [|l rest IH]; cbn; [discriminate|].
  pose proof (bestfit_list_not_Abort size align phase minaddr maxaddr vm l Hpos) as Hl.
  destruct (bestfit_list size align phase 0 minaddr maxaddr vm l) as [[x|]| | |]; cbn;
    try discriminate; [exact IH | contradiction].
Qed.

Lemma bestfit_turn_never_aborts_witness :
  xalloc_turn 0x1800 0x800 0 0 0 0 arena_half 11%nat BESTFIT <> Abort.
Proof.
  apply (bestfit_turn_never_aborts 0x1800 0x800 0 0 0 arena_half 11%nat BESTFIT).
  - reflexivity.
  - reflexivity.
  - lia.
Defined.

(** *** Instant fit *)

Lemma instantfit_scan_head size align phase nocross minaddr maxaddr vm lists p start :
  instantfit_scan size align phase nocross minaddr maxaddr vm lists = Done (Some (p, start)) ->
  exists i l s,
    lists !! i = Some (p :: l) /\ store vm !! p = Some s /\
    seg_fit s size align phase nocross minaddr maxaddr = Done (Some start) /\
    forall j q l', (j < i)%nat -> lists !! j = Some (q :: l') ->
      exists sq, store vm !! q = Some sq /\
                 seg_fit sq size align phase nocross minaddr maxaddr = Done None.
Proof.
  induction lists as [|l rest IH]; cbn; [discriminate|]. intros H.
  assert (Hrest : instantfit_scan size align phase nocross minaddr maxaddr vm rest
                  = Done (Some (p, start)) ->
                  (forall q l', l = q :: l' ->
                     exists sq, store vm !! q = Some sq /\
                       seg_fit sq size align phase nocross minaddr maxaddr = Done None) ->
                  exists i l0 s,
                    (l :: rest) !! i = Some (p :: l0) /\ store vm !! p = Some s /\
                    seg_fit s size align phase nocross minaddr maxaddr = Done (Some start) /\
                    forall j q l', (j < i)%nat -> (l :: rest) !! j = Some (q :: l') ->
                      exists sq, store vm !! q = Some sq /\
                        seg_fit sq size align phase nocross minaddr maxaddr = Done None).
  { intros Hr Hhead. destruct (IH Hr) as (i & l0 & s & Hi & Hs & Hfit & Hlow).
    exists (S i), l0, s. split; [exact Hi|]. split; [exact Hs|]. split; [exact Hfit|].
    intros [|j] q l' Hj Hl.
    - cbn in Hl. injection Hl as Hl. exact (Hhead q l' Hl).
    - cbn in Hl. apply (Hlow j q l'); [lia | exact Hl]. }
  destruct l as [|q l'].
  - apply Hrest; [exact H|]. intros ? ? ?. discriminate.
  - bind_as H s Hs. apply load_Done in Hs. bind_as H r Hfit.
    destruct r as [st|].
    + injection H as <- <-. exists 0%nat, l', s.
      split; [reflexivity|]. split; [exact Hs|]. split; [exact Hfit|].
      intros j ? ? Hj. lia.
    + apply Hrest; [exact H|]. intros q0 l0 Heq. injection Heq as <- <-. eauto.
Qed.

(** X11: with VM_INSTANTFIT a successful [vmem_xalloc] allocates from the head of
    a free list, the first list from [freelist_for_size] upward whose head
    [seg_fit] accepts; the lists below it are empty or headed by a segment
    [seg_fit] refused, and what lies behind a head is never looked at. *)
Theorem instantfit_takes_list_heads
    fuel vm size align phase nocross minaddr maxaddr vmflag a vm' :
  VM_INSTANTFIT vmflag = true ->
  vmem_xalloc fuel vm size align phase nocross minaddr maxaddr vmflag = Done (a, vm') ->
  exists fl i seg l s,
    freelist_for_size vm size = Done fl /\
    drop fl (freelist vm) !! i = Some (seg :: l) /\ store vm !! seg = Some s /\
    seg_fit s size (effective_align vm align) phase nocross minaddr maxaddr
    = Done (Some a) /\
    forall j q l', (j < i)%nat -> drop fl (freelist vm) !! j = Some (q :: l') ->
      exists sq, store vm !! q = Some sq /\
        seg_fit sq size (effective_align vm align) phase nocross minaddr maxaddr
        = Done None.
Proof.
  intros Hi H. apply vmem_xalloc_Done in H.
  destruct H as (fl & seg & vm1 & Hfl & Hst & Hfr & _ & Hturn & _).
  unfold xalloc_turn in Hturn. rewrite Hi in Hturn.
  apply instantfit_scan_head in Hturn.
  destruct Hturn as (i & l & s & Hl & Hs & Hfit & Hlow).
  rewrite Hfr in Hl, Hlow. rewrite Hst in Hs.
  exists fl, i, seg, l, s. split; [exact Hfl|]. split; [exact Hl|].
  split; [exact Hs|]. split; [exact Hfit|].
  intros j q l' Hj Hq. destruct (Hlow j q l' Hj Hq) as (sq & Hsq & Hno).
  rewrite Hst in Hsq. eauto.
Qed.

Lemma instantfit_takes_list_heads_witness :
  exists fl i seg l s,
    freelist_for_size arena_64k 0x1000 = Done fl /\
    drop fl (freelist arena_64k) !! i = Some (seg :: l) /\
    store arena_64k !! seg = Some s /\
    seg_fit s 0x1000 (effective_align arena_64k 0x1000) 0x100 0 0 0 = Done (Some 0x100) /\
    forall j q l', (j < i)%nat -> drop fl (freelist arena_64k) !! j = Some (q :: l') ->
      exists sq, store arena_64k !! q = Some sq /\
        seg_fit sq 0x1000 (effective_align arena_64k 0x1000) 0x100 0 0 0 = Done None.
Proof.
  apply (instantfit_takes_list_heads 1 arena_64k 0x1000 0x1000 0x100 0 0 0 INSTANTFIT
           0x100 arena_64k_split).
  - reflexivity.
  - vm_compute. reflexivity.
Defined.

(** *** What a returned address implies *)

Lemma elem_of_drop_list {A} (n : nat) (l : list A) (x : A) : x ∈ drop n l -> x ∈ l.
Proof.
  revert l. induction n as [|n IH]; intros l; [rewrite drop_0; auto|].
  destruct l as [|y l]; cbn; [auto|]. intros H. apply elem_of_cons. right. auto.
Qed.

Lemma linked_drop n lists p : linked (drop n lists) p -> linked lists p.
Proof. intros (l & Hl & Hp). exists l. split; [eapply elem_of_drop_list; eauto | exact Hp]. Qed.

Lemma xalloc_turn_linked size align phase nocross minaddr maxaddr vm fl vmflag seg start :
  xalloc_turn size align phase nocross minaddr maxaddr vm fl vmflag
  = Done (Some (seg, start)) ->
  (VM_INSTANTFIT vmflag = true \/ VM_BESTFIT vmflag = true) /\
  linked (drop fl (freelist vm)) seg.
Proof.
  unfold xalloc_turn. intros H. destruct (VM_INSTANTFIT vmflag).
  - split; [auto|]. apply instantfit_scan_head in H.
    destruct H as (i & l & s & Hl & _). exists (seg :: l).
    split; [apply list_elem_of_lookup; eauto | apply elem_of_cons; auto].
  - destruct (VM_BESTFIT vmflag); [|discriminate]. split; [auto|].
    apply bestfit_scan_first_fit in H. destruct H as (i & pre & post & Hl & _).
    exists (pre ++ seg :: post).
    split; [apply list_elem_of_lookup; eauto|].
    apply elem_of_app. right. apply elem_of_cons. auto.
Qed.

(** X12: [vmem_xalloc] returns an address only for a positive size with
    [nocross = 0] and one of the two fit flags, and only by carving it from a
    FREE record, at least as large as the request, that is linked in a free
    list from [freelist_for_size] upward; with [nocross <> 0], size 0 or no
    fit flag no address is ever returned. *)
Theorem xalloc_returns_only_if
    fuel vm size align phase nocross minaddr maxaddr vmflag a vm' :
  vmem_xalloc fuel vm size align phase nocross minaddr maxaddr vmflag = Done (a, vm') ->
  nocross = 0 /\ 0 < size /\
  (VM_INSTANTFIT vmflag = true \/ VM_BESTFIT vmflag = true) /\
  exists fl seg s,
    freelist_for_size vm size = Done fl /\ linked (drop fl (freelist vm)) seg /\
    store vm !! seg = Some s /\ seg_type s = SEGMENT_FREE /\ size <= seg_size s.
Proof.
  intros H. apply vmem_xalloc_Done in H.
  destruct H as (fl & seg & vm1 & Hfl & Hst & Hfr & _ & Hturn & Hfound).
  destruct (xalloc_turn_linked _ _ _ _ _ _ _ _ _ _ _ Hturn) as [Hflag Hlinked].
  apply xalloc_turn_fit in Hturn. destruct Hturn as (s & Hs & Hfit).
  apply seg_fit_Done in Hfit. destruct Hfit as (Hpos & Hle & Hnc & _).
  unfold xalloc_found in Hfound. bind_as Hfound s' Hs'. apply load_Done in Hs'.
  bind_as Hfound u Hfree. apply ASSERT_Done, bool_decide_eq_true in Hfree.
  assert (s' = s) as -> by congruence.
  rewrite Hfr in Hlinked. rewrite Hst in Hs.
  split; [exact Hnc|]. split; [exact Hpos|]. split; [exact Hflag|].
  exists fl, seg, s. auto.
Qed.

Lemma xalloc_returns_only_if_witness :
  0 = 0 /\ 0 < 0x1000 /\
  (VM_INSTANTFIT INSTANTFIT = true \/ VM_BESTFIT INSTANTFIT = true) /\
  exists fl seg s,
    freelist_for_size arena_64k 0x1000 = Done fl /\
    linked (drop fl (freelist arena_64k)) seg /\
    store arena_64k !! seg = Some s /\ seg_type s = SEGMENT_FREE /\ 0x1000 <= seg_size s.
Proof.
  apply (xalloc_returns_only_if 1 arena_64k 0x1000 0x1000 0x100 0 0 0 INSTANTFIT
           0x100 arena_64k_split).
  vm_compute. reflexivity.
Defined.

(** *** The record pool of the kernel build *)

Lemma pool_fold_seg_free l pl :
  fold_left Pool.seg_free l pl
  = Pool.mk (rev l ++ Pool.free_segs pl) (Pool.nfreesegs pl + Z.of_nat (length l)).
Proof.
  revert pl. induction l as [|x l IH]; intros pl; cbn [fold_left].
  - destruct pl. cbn. f_equal. lia.
  - rewrite IH. cbn. rewrite <- app_assoc. cbn. f_equal. lia.
Qed.

(** X13: [vmem_bootstrap] on the initial pool links the 128 static records, the
    last one first, and counts them. *)
Theorem pool_bootstrap static_segs :
  Pool.vmem_bootstrap static_segs Pool.empty
  = Pool.mk (rev (map static_segs (seq 0 128))) 128 /\
  Pool.counted (Pool.vmem_bootstrap static_segs Pool.empty).
Proof.
  assert (H : Pool.vmem_bootstrap static_segs Pool.empty
              = Pool.mk (rev (map static_segs (seq 0 128))) 128).
  { unfold Pool.vmem_bootstrap.
    change (fun pl seg => Pool.mk (seg :: Pool.free_segs pl) (Pool.nfreesegs pl + 1))
      with Pool.seg_free.
    rewrite pool_fold_seg_free. cbn [Pool.free_segs Pool.nfreesegs Pool.empty].
    rewrite app_nil_r, length_map, length_seq. reflexivity. }
  split; [exact H|]. rewrite H. unfold Pool.counted. cbn [Pool.free_segs Pool.nfreesegs].
  rewrite length_rev, length_map, length_seq. reflexivity.
Qed.

(** X14: while the counter agrees with the list, [seg_free] and [seg_alloc] keep
    it so, a record just freed is the next one allocated and the pool is
    back where it was, and [seg_alloc] fails its assertion exactly when the
    counter is 0. *)
Theorem pool_alloc_free pl :
  Pool.counted pl ->
  (forall seg, Pool.counted (Pool.seg_free pl seg) /\
               Pool.seg_alloc (Pool.seg_free pl seg) = Done (seg, pl)) /\
  (Pool.seg_alloc pl = Abort <-> Pool.nfreesegs pl = 0) /\
  (forall seg pl', Pool.seg_alloc pl = Done (seg, pl') -> Pool.counted pl').
Proof.
  destruct pl as [l n]. unfold Pool.counted, Pool.seg_alloc, Pool.seg_free. cbn.
  intros ->. split; [|split].
  - intros seg. split; [lia|]. do 3 f_equal. lia.
  - destruct l; cbn; split; intros H; try reflexivity; try discriminate; lia.
  - intros seg pl'. destruct l as [|x l]; [discriminate|].
    intros H. injection H as _ <-. cbn. lia.
Qed.

Lemma pool_alloc_free_witness :
  (forall seg, Pool.counted (Pool.seg_free Pool.empty seg) /\
               Pool.seg_alloc (Pool.seg_free Pool.empty seg) = Done (seg, Pool.empty)) /\
  (Pool.seg_alloc Pool.empty = Abort <-> Pool.nfreesegs Pool.empty = 0) /\
  (forall seg pl', Pool.seg_alloc Pool.empty = Done (seg, pl') -> Pool.counted pl').
Proof. apply (pool_alloc_free Pool.empty). reflexivity. Defined.

Lemma pool_repopulate_effect segblock pl :
  Pool.counted pl ->
  (Pool.NFREESEGS_MIN < Pool.nfreesegs pl ->
   Pool.repopulate_segments segblock pl = (0, pl)) /\
  (Pool.nfreesegs pl <= Pool.NFREESEGS_MIN ->
   exists pl', Pool.repopulate_segments segblock pl = (0, pl') /\
     Pool.free_segs pl' = rev (map segblock (seq 0 64)) ++ Pool.free_segs pl /\
     Pool.nfreesegs pl' = Pool.nfreesegs pl + 128 /\
     Pool.nfreesegs pl' = Z.of_nat (length (Pool.free_segs pl')) + 64).
Proof.
  intros Hc. unfold Pool.repopulate_segments. split; intros Hn.
  - destruct (Z.ltb_spec Pool.NFREESEGS_MIN (Pool.nfreesegs pl)); [reflexivity | lia].
  - destruct (Z.ltb_spec Pool.NFREESEGS_MIN (Pool.nfreesegs pl)); [lia|].
    rewrite pool_fold_seg_free. cbn [Pool.free_segs Pool.nfreesegs].
    rewrite length_map, length_seq.
    eexists. split; [reflexivity|]. cbn [Pool.free_segs Pool.nfreesegs].
    split; [reflexivity|]. split; [lia|].
    rewrite length_app, length_rev, length_map, length_seq.
    unfold Pool.counted in Hc. lia.
Qed.

(** X15: [repopulate_segments] leaves a pool above the low-water mark alone.  At
    or below it, it links the 64 records of the new page through [seg_free],
    which counts each of them, and then adds 64 to the counter again: the
    list grows by 64 and the counter by 128, so the counter is 64 ahead of
    the list afterwards. *)
Theorem pool_repopulate_counts_twice segblock pl :
  Pool.counted pl ->
  (Pool.NFREESEGS_MIN < Pool.nfreesegs pl ->
   Pool.repopulate_segments segblock pl = (0, pl)) /\
  (Pool.nfreesegs pl <= Pool.NFREESEGS_MIN ->
   exists pl', Pool.repopulate_segments segblock pl = (0, pl') /\
     Pool.free_segs pl' = rev (map segblock (seq 0 64)) ++ Pool.free_segs pl /\
     Pool.nfreesegs pl' = Pool.nfreesegs pl + 128 /\
     Pool.nfreesegs pl' = Z.of_nat (length (Pool.free_segs pl')) + 64).
Proof. exact (pool_repopulate_effect segblock pl). Qed.

Lemma pool_repopulate_counts_twice_witness :
  (Pool.NFREESEGS_MIN < Pool.nfreesegs Pool.empty ->
   Pool.repopulate_segments (fun i => i) Pool.empty = (0, Pool.empty)) /\
  (Pool.nfreesegs Pool.empty <= Pool.NFREESEGS_MIN ->
   exists pl', Pool.repopulate_segments (fun i => i) Pool.empty = (0, pl') /\
     Pool.free_segs pl' = rev (map (fun i => i) (seq 0 64)) ++ Pool.free_segs Pool.empty /\
     Pool.nfreesegs pl' = Pool.nfreesegs Pool.empty + 128 /\
     Pool.nfreesegs pl' = Z.of_nat (length (Pool.free_segs pl')) + 64).
Proof. apply (pool_repopulate_counts_twice (fun i => i) Pool.empty). reflexivity. Defined.

Lemma pool_drain_all l n :
  Pool.drain (length l) (Pool.mk l n) = Done (Pool.mk [] (n - Z.of_nat (length l))).
Proof.
  revert n. induction l as [|x l IH]; intros n; cbn [Pool.drain length].
  - do 2 f_equal. lia.
  - cbn. rewrite IH. do 2 f_equal. lia.
Qed.

(** X16: the stale counter starves the pool: once a pool whose counter agreed
    with its list has been repopulated, a caller can take every record it
    holds; the counter then still reads 64, above the low-water mark, so
    [repopulate_segments] does nothing and the next [seg_alloc] fails its
    assertion. *)
Theorem pool_runs_dry segblock pl :
  Pool.counted pl -> Pool.nfreesegs pl <= Pool.NFREESEGS_MIN ->
  exists pl1 pl2,
    Pool.repopulate_segments segblock pl = (0, pl1) /\
    Pool.drain (length (Pool.free_segs pl1)) pl1 = Done pl2 /\
    Pool.nfreesegs pl2 = 64 /\
    Pool.repopulate_segments segblock pl2 = (0, pl2) /\
    Pool.seg_alloc pl2 = Abort.
Proof.
  intros Hc Hn.
  destruct (pool_repopulate_effect segblock pl Hc) as [_ Hre].
  destruct (Hre Hn) as (pl1 & Hpl1 & Hlist & Hcnt & Hahead).
  destruct pl1 as [l1 n1]. cbn [Pool.free_segs Pool.nfreesegs] in *.
  eexists _, _. split; [exact Hpl1|]. split; [apply pool_drain_all|].
  cbn [Pool.nfreesegs]. split; [lia|]. split; [|reflexivity].
  unfold Pool.repopulate_segments. cbn [Pool.nfreesegs].
  destruct (Z.ltb_spec Pool.NFREESEGS_MIN (n1 - Z.of_nat (length l1))); [reflexivity|].
  unfold Pool.NFREESEGS_MIN in *. lia.
Qed.

Lemma pool_runs_dry_witness :
  exists pl1 pl2,
    Pool.repopulate_segments (fun i => i) Pool.empty = (0, pl1) /\
    Pool.drain (length (Pool.free_segs pl1)) pl1 = Done pl2 /\
    Pool.nfreesegs pl2 = 64 /\
    Pool.repopulate_segments (fun i => i) pl2 = (0, pl2) /\
    Pool.seg_alloc pl2 = Abort.
Proof.
  apply (pool_runs_dry (fun i => i) Pool.empty).
  - reflexivity.
  - unfold Pool.NFREESEGS_MIN. cbn. lia.
Defined.

(** *** Queue and list primitives *)

Lemma TAILQ_INSERT_AFTER_split q listelm elm q' :
  TAILQ_INSERT_AFTER q listelm elm = Some q' ->
  exists pre post, q = pre ++ listelm :: post /\ q' = pre ++ listelm :: elm :: post.
Proof.
  revert q'. induction q as [|x r IH]; intros q'; cbn; [discriminate|].
  destruct (decide (x = listelm)) as [->|Hne].
  - intros H. injection H as <-. exists [], r. split; reflexivity.
  - destruct (TAILQ_INSERT_AFTER r listelm elm) as [r'|]; cbn; [|discriminate].
    intros H. injection H as <-.
    destruct (IH r' eq_refl) as (pre & post & -> & ->).
    exists (x :: pre), post. split; reflexivity.
Qed.

Lemma TAILQ_INSERT_AFTER_elem q listelm elm q' x :
  TAILQ_INSERT_AFTER q listelm elm = Some q' -> (x ∈ q' <-> x = elm \/ x ∈ q).
Proof.
  intros H. apply TAILQ_INSERT_AFTER_split in H. destruct H as (pre & post & -> & ->).
  rewrite !elem_of_app, !elem_of_cons. tauto.
Qed.

Lemma TAILQ_INSERT_AFTER_head q listelm elm q' :
  TAILQ_INSERT_AFTER q listelm elm = Some q' -> head q' = head q.
Proof.
  intros H. apply TAILQ_INSERT_AFTER_split in H. destruct H as (pre & post & -> & ->).
  destruct pre; reflexivity.
Qed.

Lemma TAILQ_INSERT_AFTER_NoDup q listelm elm q' :
  TAILQ_INSERT_AFTER q listelm elm = Some q' -> NoDup q -> elm ∉ q -> NoDup q'.
Proof.
  intros H. apply TAILQ_INSERT_AFTER_split in H. destruct H as (pre & post & -> & ->).
  rewrite !NoDup_app, !NoDup_cons. intros (Hpre & Hdis & Hl & Hpost) Hnot.
  rewrite elem_of_app, elem_of_cons in Hnot.
  split; [exact Hpre|]. split.
  - intros x Hx Hin. apply elem_of_cons in Hin as [->|Hin]; [exact (Hdis _ Hx ltac:(left))|].
    apply elem_of_cons in Hin as [->|Hin]; [tauto|].
    apply (Hdis x Hx). right. exact Hin.
  - split; [|split; [tauto | exact Hpost]].
    intros Hin. apply elem_of_cons in Hin as [->|Hin]; tauto.
Qed.

Lemma linked_insert_head lists i bucket p x :
  lists !! i = Some bucket ->
  (linked (<[i := p :: bucket]> lists) x <-> x = p \/ linked lists x).
Proof.
  intros Hb. unfold linked. split.
  - intros (l & Hl & Hx). apply list_elem_of_lookup in Hl as [j Hj].
    apply list_lookup_insert_Some in Hj as [(-> & <- & _)|[_ Hj]].
    + apply elem_of_cons in Hx as [->|Hx]; [left; reflexivity|].
      right. exists bucket. split; [eapply list_elem_of_lookup_2; eauto | exact Hx].
    + right. exists l. split; [eapply list_elem_of_lookup_2; eauto | exact Hx].
  - assert (Hi : (i < length lists)%nat) by (eapply lookup_lt_Some; eauto).
    intros [->|(l & Hl & Hx)].
    + exists (p :: bucket). split; [|apply elem_of_cons; auto].
      eapply list_elem_of_lookup_2. apply list_lookup_insert_eq. exact Hi.
    + apply list_elem_of_lookup in Hl as [j Hj].
      destruct (decide (i = j)) as [<-|Hne].
      * exists (p :: bucket). split.
        -- eapply list_elem_of_lookup_2. apply list_lookup_insert_eq. exact Hi.
        -- apply elem_of_cons. right. congruence.
      * exists l. split; [|exact Hx].
        eapply list_elem_of_lookup_2. rewrite list_lookup_insert_ne; eauto.
Qed.

Lemma linked_LIST_REMOVE lists elm x :
  linked (LIST_REMOVE elm lists) x <-> linked lists x /\ x <> elm.
Proof.
  unfold linked, LIST_REMOVE. induction lists as [|l rest IH]; cbn.
  - split; [intros (l & Hl & _) | intros [(l & Hl & _) _]];
      apply elem_of_nil in Hl; contradiction.
  - split.
    + intros (l' & Hl' & Hx). apply elem_of_cons in Hl' as [->|Hl'].
      * apply list_elem_of_filter in Hx as [Hne Hx].
        split; [|exact Hne]. exists l. split; [apply elem_of_cons; auto | exact Hx].
      * destruct (proj1 IH) as [(l0 & Hl0 & Hx0) Hne]; [eauto|].
        split; [|exact Hne]. exists l0. split; [apply elem_of_cons; auto | exact Hx0].
    + intros [(l' & Hl' & Hx) Hne]. apply elem_of_cons in Hl' as [->|Hl'].
      * exists (filter (fun q => q <> elm) l).
        split; [apply elem_of_cons; auto | apply list_elem_of_filter; auto].
      * destruct (proj2 IH) as (l0 & Hl0 & Hx0); [eauto|].
        exists l0. split; [apply elem_of_cons; auto | exact Hx0].
Qed.

Lemma linked_replicate_nil n p : ~ linked (replicate n ([] : list nat)) p.
Proof.
  intros (l & Hl & Hp). apply elem_of_replicate_inv in Hl as ->.
  apply elem_of_nil in Hp. exact Hp.
Qed.

(** What the three linking functions do to the arena. *)
Lemma vmem_add_to_freelist_effect vm p vm' :
  vmem_add_to_freelist vm p = Done vm' ->
  exists i bucket, freelist vm !! i = Some bucket /\
    vm' = set_freelist (<[i := p :: bucket]> (freelist vm)) vm.
Proof.
  unfold vmem_add_to_freelist. intros H.
  bind_as H s Hs. bind_as H i Hi. bind_as H bucket Hb. apply defined_Done in Hb.
  injection H as <-. eauto.
Qed.

Lemma hashtab_insert_effect vm p vm' :
  hashtab_insert vm p = Done vm' ->
  exists s i bucket, store vm !! p = Some s /\
    Z.of_nat i = murmur64 (seg_base s) mod Z.of_nat (length (hashtable vm)) /\
    hashtable vm !! i = Some bucket /\
    vm' = set_hashtable (<[i := p :: bucket]> (hashtable vm)) vm.
Proof.
  unfold hashtab_insert. intros H.
  bind_as H s Hs. apply load_Done in Hs. bind_as H i Hi.
  bind_as H bucket Hb. apply defined_Done in Hb. injection H as <-.
  exists s, i, bucket. split; [exact Hs|]. split; [|auto].
  unfold hashbucket_for_addr in Hi.
  destruct (Z.eqb_spec (Z.of_nat (length (hashtable vm))) 0) as [?|Hn]; [discriminate|].
  injection Hi as <-. rewrite Z2Nat.id; [reflexivity|].
  apply Z.mod_pos_bound. lia.
Qed.

Lemma vmem_insert_segment_effect vm p prev vm' :
  vmem_insert_segment vm p prev = Done vm' ->
  exists pv q', prev = Some pv /\ TAILQ_INSERT_AFTER (segqueue vm) pv p = Some q' /\
    vm' = set_segqueue q' vm.
Proof.
  unfold vmem_insert_segment. intros H.
  bind_as H pv Hpv. apply defined_Done in Hpv.
  bind_as H q' Hq. apply defined_Done in Hq. injection H as <-. eauto.
Qed.

(** *** The shape of the arena is kept *)

Lemma xalloc_head_split_effect vm seg n2 s start s1 vm1 :
  xalloc_head_split vm seg n2 s start = Done (s1, vm1) ->
  (seg_base s = start /\ s1 = s /\ vm1 = vm) \/
  (seg_base s <> start /\
   s1 = mkSeg (seg_type s) (seg_imported s) start
              (Word.sub (seg_size s) (Word.sub start (seg_base s))) /\
   exists i bucket pv q',
     freelist vm !! i = Some bucket /\
     TAILQ_INSERT_AFTER (segqueue vm) pv n2 = Some q' /\
     vm1 = mkVmem (quantum vm) (source vm) q' (<[i := n2 :: bucket]> (freelist vm))
                  (hashtable vm)
                  (<[seg := s1]>
                     (<[n2 := mkSeg SEGMENT_FREE false (seg_base s)
                                    (Word.sub start (seg_base s))]> (store vm)))
                  (brk vm)).
Proof.
  unfold xalloc_head_split.
  destruct (Z.eqb_spec (seg_base s) start) as [Heq|Hne]; cbn [negb].
  - intros H. injection H as <- <-. left. auto.
  - intros H. bind_as H vma Ha. bind_as H vmb Hb. injection H as <- <-. right.
    split; [exact Hne|]. split; [reflexivity|].
    apply vmem_add_to_freelist_effect in Ha. destruct Ha as (i & bucket & Hi & ->).
    apply vmem_insert_segment_effect in Hb. destruct Hb as (pv & q' & _ & Hq & ->).
    exists i, bucket, pv, q'. cbn in Hi, Hq. auto.
Qed.

Lemma xalloc_head_split_wf vm seg n2 s start s1 vm1 :
  arena_wf vm -> seg ∈ segqueue vm -> ~ linked (freelist vm) seg ->
  store vm !! seg = Some s -> seg_type s = SEGMENT_FREE ->
  store vm !! n2 = None -> (n2 < brk vm)%nat ->
  xalloc_head_split vm seg n2 s start = Done (s1, vm1) ->
  arena_wf vm1 /\ seg ∈ segqueue vm1 /\ ~ linked (freelist vm1) seg /\
  store vm1 !! seg = Some s1 /\ seg_type s1 = SEGMENT_FREE /\ seg_base s1 = start /\
  brk vm1 = brk vm /\ hashtable vm1 = hashtable vm /\
  (forall n, n <> n2 -> store vm !! n = None -> store vm1 !! n = None).
Proof.
  intros (Hnd & Hval & Hfresh & Hfl & Hht & Hhead) Hsq Hnl Hs Hfree Hn2 Hlt H.
  apply xalloc_head_split_effect in H.
  destruct H as [(Hb & -> & ->)|(Hb & -> & i & bucket & pv & q' & Hi & Hq & ->)].
  { split; [exact (conj Hnd (conj Hval (conj Hfresh (conj Hfl (conj Hht Hhead)))))|].
    repeat split; auto. }
  assert (Hne : seg <> n2) by congruence.
  assert (Hn2q : n2 ∉ segqueue vm).
  { intros Hin. destruct (Hval _ Hin) as [? ?]. congruence. }
  cbn [segqueue freelist hashtable store brk seg_type seg_base].
  set (s2 := mkSeg SEGMENT_FREE false (seg_base s) (Word.sub start (seg_base s))).
  set (s1 := mkSeg (seg_type s) (seg_imported s) start _).
  assert (Hother : forall x, x <> seg -> x <> n2 ->
            <[seg := s1]> (<[n2 := s2]> (store vm)) !! x = store vm !! x).
  { intros x H1 H2. rewrite !lookup_insert_ne by auto. reflexivity. }
  repeat split.
  - exact (TAILQ_INSERT_AFTER_NoDup _ _ _ _ Hq Hnd Hn2q).
  - intros x Hx. cbn. apply (TAILQ_INSERT_AFTER_elem _ _ _ _ x Hq) in Hx.
    rewrite !lookup_insert_is_Some'. destruct Hx as [->|Hx]; auto.
  - intros x Hx. cbn in Hx |- *. rewrite !lookup_insert_is_Some' in Hx.
    destruct Hx as [<-|[<-|Hx]]; auto; apply Hfresh; rewrite Hs; eauto.
  - cbn. apply (TAILQ_INSERT_AFTER_elem _ _ _ _ p Hq).
    apply (linked_insert_head _ _ _ _ _ Hi) in H as [->|Hl]; [auto|].
    right. apply (Hfl _ Hl).
  - cbn. apply (linked_insert_head _ _ _ _ _ Hi) in H as [->|Hl].
    + exists s2. rewrite lookup_insert_ne by auto. rewrite lookup_insert_eq. auto.
    + destruct (Hfl _ Hl) as (_ & sx & Hsx & Htx). exists sx.
      rewrite Hother; [auto | congruence | congruence].
  - cbn. apply (TAILQ_INSERT_AFTER_elem _ _ _ _ p Hq). right. apply (Hht _ H).
  - cbn. destruct (Hht _ H) as (_ & sx & Hsx & Htx). exists sx.
    rewrite Hother; [auto | congruence | congruence].
  - intros h r Hh Hr. cbn in Hh, Hr.
    rewrite (TAILQ_INSERT_AFTER_head _ _ _ _ Hq) in Hh.
    assert (Hhq : h ∈ segqueue vm).
    { destruct (segqueue vm); [discriminate|]. injection Hh as ->. apply elem_of_cons. auto. }
    destruct (decide (h = seg)) as [->|Hhs].
    { pose proof (Hhead seg s Hh Hs). congruence. }
    rewrite Hother in Hr; [eauto | auto | congruence].
  - apply (TAILQ_INSERT_AFTER_elem _ _ _ _ seg Hq). auto.
  - intros Hl. apply (linked_insert_head _ _ _ _ _ Hi) in Hl as [?|Hl]; auto.
  - apply lookup_insert_eq.
  - exact Hfree.
  - intros n Hn Hnone. cbn. rewrite !lookup_insert_ne; [exact Hnone | auto | congruence].
Qed.

Lemma xalloc_tail_split_effect vm seg n s size a vm' :
  xalloc_tail_split vm seg n s size = Done (a, vm') ->
  a = seg_base s /\
  ((exists i bucket pv q' sx j hb,
      freelist vm !! i = Some bucket /\
      TAILQ_INSERT_AFTER (segqueue vm) pv n = Some q' /\
      <[seg := mkSeg (seg_type s) (seg_imported s) (Word.add (seg_base s) size)
                     (Word.sub (seg_size s) size)]>
        (<[n := mkSeg SEGMENT_ALLOCATED false (seg_base s) size]> (store vm)) !! n
      = Some sx /\
      Z.of_nat j = murmur64 (seg_base sx) mod Z.of_nat (length (hashtable vm)) /\
      hashtable vm !! j = Some hb /\
      vm' = mkVmem (quantum vm) (source vm) q' (<[i := seg :: bucket]> (freelist vm))
                   (<[j := n :: hb]> (hashtable vm))
                   (<[seg := mkSeg (seg_type s) (seg_imported s) (Word.add (seg_base s) size)
                                   (Word.sub (seg_size s) size)]>
                      (<[n := mkSeg SEGMENT_ALLOCATED false (seg_base s) size]> (store vm)))
                   (brk vm)) \/
   (exists sx j hb,
      size <= seg_size s /\ store vm !! seg = Some sx /\
      Z.of_nat j = murmur64 (seg_base sx) mod Z.of_nat (length (hashtable vm)) /\
      hashtable vm !! j = Some hb /\
      vm' = mkVmem (quantum vm) (source vm) (segqueue vm) (freelist vm)
                   (<[j := seg :: hb]> (hashtable vm))
                   (<[seg := mkSeg SEGMENT_ALLOCATED (seg_imported s) (seg_base s)
                                   (seg_size s)]> (store vm))
                   (brk vm))).
Proof.
  unfold xalloc_tail_split. destruct (_ && _).
  - intros H. bind_as H vma Ha. bind_as H vmb Hb. bind_as H vmc Hc. bind_as H u Hu.
    injection H as <- <-. split; [reflexivity|]. left.
    apply vmem_add_to_freelist_effect in Ha. destruct Ha as (i & bucket & Hi & ->).
    apply vmem_insert_segment_effect in Hb. destruct Hb as (pv & q' & _ & Hq & ->).
    apply hashtab_insert_effect in Hc. destruct Hc as (sx & j & hb & Hsx & Hj & Hhb & ->).
    exists i, bucket, pv, q', sx, j, hb. cbn in Hi, Hq, Hsx, Hj, Hhb. auto 10.
  - intros H. bind_as H vma Ha. bind_as H u Hu. injection H as <- <-.
    split; [reflexivity|]. right. apply ASSERT_Done, Z.leb_le in Hu.
    apply hashtab_insert_effect in Ha. destruct Ha as (sx & j & hb & Hsx & Hj & Hhb & ->).
    exists sx, j, hb. auto 10.
Qed.

Lemma xalloc_tail_split_wf vm seg n s size a vm' :
  arena_wf vm -> seg ∈ segqueue vm -> ~ linked (freelist vm) seg ->
  store vm !! seg = Some s -> seg_type s = SEGMENT_FREE ->
  store vm !! n = None -> (n < brk vm)%nat ->
  xalloc_tail_split vm seg n s size = Done (a, vm') ->
  arena_wf vm' /\ recorded_at vm' a size /\ brk vm' = brk vm.
Proof.
  intros (Hnd & Hval & Hfresh & Hfl & Hht & Hhead) Hsq Hnl Hs Hfree Hn Hlt H.
  apply xalloc_tail_split_effect in H. destruct H as [-> H].
  assert (Hne : seg <> n) by congruence.
  assert (Hnq : n ∉ segqueue vm).
  { intros Hin. destruct (Hval _ Hin) as [? ?]. congruence. }
  assert (Hheadq : forall h, head (segqueue vm) = Some h -> h ∈ segqueue vm /\ h <> seg).
  { intros h Hh. split.
    - destruct (segqueue vm); [discriminate|]. injection Hh as ->. apply elem_of_cons. auto.
    - intros ->. pose proof (Hhead seg s Hh Hs). congruence. }
  destruct H as [(i & bucket & pv & q' & sx & j & hb & Hi & Hq & Hsx & Hj & Hhb & ->)
                |(sx & j & hb & Hle & Hsx & Hj & Hhb & ->)].
  - rewrite lookup_insert_ne, lookup_insert_eq in Hsx by auto. injection Hsx as <-.
    cbn [seg_base] in Hj.
    set (rn := mkSeg SEGMENT_ALLOCATED false (seg_base s) size) in *.
    set (s2 := mkSeg (seg_type s) _ _ _) in *.
    assert (Hother : forall x, x <> seg -> x <> n ->
              <[seg := s2]> (<[n := rn]> (store vm)) !! x = store vm !! x).
    { intros x H1 H2. rewrite !lookup_insert_ne by auto. reflexivity. }
    assert (Hlen : (j < length (hashtable vm))%nat) by (eapply lookup_lt_Some; eauto).
    split; [|split; [|reflexivity]].
    + repeat split.
      * exact (TAILQ_INSERT_AFTER_NoDup _ _ _ _ Hq Hnd Hnq).
      * intros x Hx. cbn in Hx |- *. apply (TAILQ_INSERT_AFTER_elem _ _ _ _ x Hq) in Hx.
        rewrite !lookup_insert_is_Some'. destruct Hx as [->|Hx]; auto.
      * intros x Hx. cbn in Hx |- *. rewrite !lookup_insert_is_Some' in Hx.
        destruct Hx as [<-|[<-|Hx]]; auto; apply Hfresh; rewrite Hs; eauto.
      * cbn in H |- *. apply (TAILQ_INSERT_AFTER_elem _ _ _ _ p Hq).
        apply (linked_insert_head _ _ _ _ _ Hi) in H as [->|Hl]; [auto|].
        right. apply (Hfl _ Hl).
      * cbn in H |- *. apply (linked_insert_head _ _ _ _ _ Hi) in H as [->|Hl].
        -- exists s2. rewrite lookup_insert_eq. auto.
        -- destruct (Hfl _ Hl) as (_ & sy & Hsy & Hty). exists sy.
           rewrite Hother; [auto | intros ->; contradiction | congruence].
      * cbn in H |- *. apply (TAILQ_INSERT_AFTER_elem _ _ _ _ p Hq).
        apply (linked_insert_head _ _ _ _ _ Hhb) in H as [->|Hl]; [auto|].
        right. apply (Hht _ Hl).
      * cbn in H |- *. apply (linked_insert_head _ _ _ _ _ Hhb) in H as [->|Hl].
        -- exists rn. rewrite lookup_insert_ne, lookup_insert_eq by auto. auto.
        -- destruct (Hht _ Hl) as (_ & sy & Hsy & Hty). exists sy.
           rewrite Hother; [auto | congruence | congruence].
      * intros h r Hh Hr. cbn in Hh, Hr.
        rewrite (TAILQ_INSERT_AFTER_head _ _ _ _ Hq) in Hh.
        destruct (Hheadq h Hh) as [Hhq Hhs].
        rewrite Hother in Hr; [eauto | auto | congruence].
    + exists n, j, hb, rn. cbn [hashtable segqueue store].
      rewrite length_insert. split; [exact Hj|].
      split; [apply list_lookup_insert_eq; exact Hlen|].
      split; [apply (TAILQ_INSERT_AFTER_elem _ _ _ _ n Hq); auto|].
      split; [rewrite lookup_insert_ne, lookup_insert_eq by auto; reflexivity|].
      cbn. repeat split; lia.
  - assert (sx = s) as -> by congruence.
    set (ra := mkSeg SEGMENT_ALLOCATED _ _ _) in *.
    assert (Hlen : (j < length (hashtable vm))%nat) by (eapply lookup_lt_Some; eauto).
    split; [|split; [|reflexivity]].
    + repeat split.
      * exact Hnd.
      * intros x Hx. cbn in Hx |- *. rewrite lookup_insert_is_Some'. auto.
      * intros x Hx. cbn in Hx |- *. rewrite lookup_insert_is_Some' in Hx.
        destruct Hx as [<-|Hx]; auto; apply Hfresh; rewrite Hs; eauto.
      * cbn. apply (Hfl _ H).
      * cbn in H |- *. destruct (Hfl _ H) as (_ & sy & Hsy & Hty). exists sy.
        rewrite lookup_insert_ne; [auto | intros ->; contradiction].
      * cbn in H |- *. apply (linked_insert_head _ _ _ _ _ Hhb) in H as [->|Hl]; [auto|].
        apply (Hht _ Hl).
      * cbn in H |- *. apply (linked_insert_head _ _ _ _ _ Hhb) in H as [->|Hl].
        -- exists ra. rewrite lookup_insert_eq. auto.
        -- destruct (Hht _ Hl) as (_ & sy & Hsy & Hty). exists sy.
           rewrite lookup_insert_ne; [auto | congruence].
      * intros h r Hh Hr. cbn in Hh, Hr. destruct (Hheadq h Hh) as [Hhq Hhs].
        rewrite lookup_insert_ne in Hr; [eauto | auto].
    + exists seg, j, hb, ra. cbn [hashtable segqueue store].
      rewrite length_insert. split; [exact Hj|].
      split; [apply list_lookup_insert_eq; exact Hlen|].
      split; [exact Hsq|]. split; [apply lookup_insert_eq|].
      cbn. repeat split; lia.
Qed.

Lemma arena_wf_set_brk vm b :
  arena_wf vm -> (brk vm <= b)%nat -> arena_wf (set_brk b vm).
Proof.
  intros (Hnd & Hval & Hfresh & Hfl & Hht & Hhead) Hb.
  split; [exact Hnd|]. split; [exact Hval|]. split; [|auto].
  intros p Hp. cbn. pose proof (Hfresh p Hp). lia.
Qed.

Lemma store_fresh_None vm p : store_fresh vm -> (brk vm <= p)%nat -> store vm !! p = None.
Proof.
  intros Hfresh Hp. destruct (store vm !! p) eqn:E; [|reflexivity].
  pose proof (Hfresh p ltac:(rewrite E; eauto)). lia.
Qed.

Lemma xalloc_found_wf vm seg n n2 start size a vm' :
  arena_wf vm -> linked (freelist vm) seg ->
  store vm !! n = None -> (n < brk vm)%nat ->
  store vm !! n2 = None -> (n2 < brk vm)%nat -> n <> n2 ->
  xalloc_found vm seg n n2 start size = Done (a, vm') ->
  arena_wf vm' /\ recorded_at vm' a size /\ brk vm' = brk vm.
Proof.
  intros Hwf Hlinked Hn Hnlt Hn2 Hn2lt Hnn H.
  pose proof Hwf as (Hnd & Hval & Hfresh & Hfl & Hht & Hhead).
  unfold xalloc_found in H.
  bind_as H s Hs. apply load_Done in Hs.
  bind_as H u1 Hfree. apply ASSERT_Done, bool_decide_eq_true in Hfree.
  bind_as H u2 Hsize. bind_as H r Hhs. destruct r as [s1 vm1].
  bind_as H u3 Hbase.
  set (vm0 := set_freelist (LIST_REMOVE seg (freelist vm)) vm) in *.
  assert (Hwf0 : arena_wf vm0).
  { split; [exact Hnd|]. split; [exact Hval|]. split; [exact Hfresh|].
    split; [|auto]. intros p Hp. cbn in Hp.
    apply linked_LIST_REMOVE in Hp as [Hp _]. exact (Hfl p Hp). }
  assert (Hnl0 : ~ linked (freelist vm0) seg).
  { cbn. intros Hl. apply linked_LIST_REMOVE in Hl as [_ Hl]. contradiction. }
  destruct (Hfl seg Hlinked) as (Hsq & _).
  destruct (xalloc_head_split_wf vm0 seg n2 s start s1 vm1 Hwf0 Hsq Hnl0 Hs Hfree
              Hn2 Hn2lt Hhs)
    as (Hwf1 & Hsq1 & Hnl1 & Hs1 & Hfree1 & _ & Hbrk1 & _ & Hnone).
  destruct (xalloc_tail_split_wf vm1 seg n s1 size a vm' Hwf1 Hsq1 Hnl1 Hs1 Hfree1)
    as (Hwf' & Hrec & Hbrk'); [apply Hnone; auto | rewrite Hbrk1; exact Hnlt | exact H |].
  split; [exact Hwf'|]. split; [exact Hrec|]. rewrite Hbrk', Hbrk1. reflexivity.
Qed.

Lemma vmem_xalloc_wf fuel vm size align phase nocross minaddr maxaddr vmflag a vm' :
  arena_wf vm ->
  vmem_xalloc fuel vm size align phase nocross minaddr maxaddr vmflag = Done (a, vm') ->
  arena_wf vm' /\ recorded_at vm' a size /\ brk vm' = S (S (brk vm)).
Proof.
  intros Hwf H. unfold vmem_xalloc in H.
  bind_as H fl Hfl. bind_as H u Hcross. cbn in H.
  bind_as H r Hsearch. destruct r as [seg start].
  apply xalloc_search_Done, xalloc_turn_linked in Hsearch.
  destruct Hsearch as [_ Hlinked]. apply linked_drop in Hlinked.
  pose proof Hwf as (_ & _ & Hfresh & _).
  set (vm2 := set_brk (S (S (brk vm))) (set_brk (S (brk vm)) vm)) in *.
  assert (Hwf2 : arena_wf vm2).
  { apply arena_wf_set_brk; [apply arena_wf_set_brk; [exact Hwf | lia] | cbn; lia]. }
  assert (Hn : store vm2 !! brk vm = None) by (apply (store_fresh_None vm); auto; lia).
  assert (Hn2 : store vm2 !! S (brk vm) = None)
    by (apply (store_fresh_None vm); auto; lia).
  apply (xalloc_found_wf vm2 seg (brk vm) (S (brk vm)) start size a vm' Hwf2 Hlinked Hn)
    in H; [exact H | cbn; lia | exact Hn2 | cbn; lia | lia].
Qed.

(** X17: [vmem_xalloc] keeps the shape of the arena: after a successful call the
    queue still has no entry twice, every entry is a record, the free lists
    hold FREE records of the queue, the hash table ALLOCATED ones, and the
    queue still starts with a span. *)
Theorem xalloc_keeps_shape
    fuel vm size align phase nocross minaddr maxaddr vmflag a vm' :
  arena_wf vm ->
  vmem_xalloc fuel vm size align phase nocross minaddr maxaddr vmflag = Done (a, vm') ->
  arena_wf vm'.
Proof. intros Hwf H. exact (proj1 (vmem_xalloc_wf _ _ _ _ _ _ _ _ _ _ _ Hwf H)). Qed.

(** X18: after a successful [vmem_xalloc] on a well-shaped arena the returned
    address can be found again: the head of hash bucket
    [murmur64(a) mod length] is an ALLOCATED record of the segment queue with
    base [a] and a size of at least the request. *)
Theorem xalloc_records_allocation
    fuel vm size align phase nocross minaddr maxaddr vmflag a vm' :
  arena_wf vm ->
  vmem_xalloc fuel vm size align phase nocross minaddr maxaddr vmflag = Done (a, vm') ->
  recorded_at vm' a size.
Proof.
  intros Hwf H. exact (proj1 (proj2 (vmem_xalloc_wf _ _ _ _ _ _ _ _ _ _ _ Hwf H))).
Qed.

(** *** vmem_add and vmem_create *)

Lemma TAILQ_INSERT_AFTER_tail q b e :
  b ∉ q -> TAILQ_INSERT_AFTER (q ++ [b]) b e = Some (q ++ [b; e]).
Proof.
  induction q as [|x r IH]; intros Hb; cbn.
  - destruct (decide (b = b)); [reflexivity | contradiction].
  - rewrite not_elem_of_cons in Hb. destruct Hb as [Hne Hb].
    destruct (decide (x = b)); [congruence|]. rewrite (IH Hb). reflexivity.
Qed.

Lemma vmem_add_internal_effect vm base size import p vm' :
  brk vm ∉ segqueue vm ->
  vmem_add_internal vm base size import = Done (p, vm') ->
  p = S (brk vm) /\
  exists i bucket,
    freelist_for_size vm size = Done i /\ freelist vm !! i = Some bucket /\
    vm' = mkVmem (quantum vm) (source vm) (segqueue vm ++ [brk vm; S (brk vm)])
                 (<[i := S (brk vm) :: bucket]> (freelist vm)) (hashtable vm)
                 (<[S (brk vm) := mkSeg SEGMENT_FREE false base size]>
                    (<[brk vm := mkSeg SEGMENT_SPAN import base size]> (store vm)))
                 (S (S (brk vm))).
Proof.
  intros Hb. unfold vmem_add_internal, seg_alloc. cbn. intros H.
  bind_as H vma Ha. bind_as H vmb Hc. injection H as <- <-. split; [reflexivity|].
  unfold vmem_insert_segment in Ha. cbn in Ha.
  rewrite (TAILQ_INSERT_AFTER_tail _ _ _ Hb) in Ha. cbn in Ha. injection Ha as <-.
  unfold vmem_add_to_freelist, load in Hc. cbn in Hc.
  rewrite lookup_insert_eq in Hc. cbn in Hc.
  bind_as Hc i Hi. bind_as Hc bucket Hbk. apply defined_Done in Hbk.
  injection Hc as <-. exists i, bucket. cbn in Hbk. auto.
Qed.

Lemma arena_wf_brk_not_queued vm : arena_wf vm -> brk vm ∉ segqueue vm.
Proof.
  intros (_ & Hval & Hfresh & _) Hin. pose proof (Hfresh _ (Hval _ Hin)). lia.
Qed.

Lemma vmem_add_internal_shape vm base size import p vm' :
  arena_wf vm ->
  vmem_add_internal vm base size import = Done (p, vm') ->
  p = S (brk vm) /\
  segqueue vm' = segqueue vm ++ [brk vm; p] /\
  store vm' !! brk vm = Some (mkSeg SEGMENT_SPAN import base size) /\
  store vm' !! p = Some (mkSeg SEGMENT_FREE false base size) /\
  (exists i bucket, freelist_for_size vm size = Done i /\
     freelist vm !! i = Some bucket /\
     freelist vm' = <[i := p :: bucket]> (freelist vm)) /\
  hashtable vm' = hashtable vm /\
  arena_wf vm'.
Proof.
  intros Hwf H. pose proof (arena_wf_brk_not_queued vm Hwf) as Hbq.
  apply (vmem_add_internal_effect _ _ _ _ _ _ Hbq) in H.
  destruct H as (-> & i & bucket & Hi & Hbk & ->).
  destruct Hwf as (Hnd & Hval & Hfresh & Hfl & Hht & Hhead).
  set (b := brk vm) in *.
  set (rs := mkSeg SEGMENT_SPAN import base size).
  set (rf := mkSeg SEGMENT_FREE false base size).
  assert (Hnb : store vm !! b = None) by (apply store_fresh_None; auto).
  assert (Hnb' : store vm !! S b = None) by (apply store_fresh_None; auto; unfold b; lia).
  assert (Hother : forall x, is_Some (store vm !! x) ->
            <[S b := rf]> (<[b := rs]> (store vm)) !! x = store vm !! x).
  { intros x [sx Hx]. rewrite !lookup_insert_ne by congruence. reflexivity. }
  cbn [segqueue freelist hashtable store brk].
  split; [reflexivity|]. split; [reflexivity|].
  split; [rewrite lookup_insert_ne, lookup_insert_eq by lia; reflexivity|].
  split; [apply lookup_insert_eq|].
  split; [exists i, bucket; auto|]. split; [reflexivity|].
  repeat split.
  - cbn. apply NoDup_app. split; [exact Hnd|]. split.
    + intros x Hx Hin. apply elem_of_cons in Hin as [->|Hin]; [contradiction|].
      apply list_elem_of_singleton in Hin as ->.
      destruct (Hval _ Hx). congruence.
    + apply NoDup_cons. split; [|apply NoDup_singleton].
      intros Hin. apply list_elem_of_singleton in Hin. lia.
  - intros x Hx. cbn in Hx |- *. rewrite !lookup_insert_is_Some'.
    apply elem_of_app in Hx as [Hx|Hx]; [auto|].
    apply elem_of_cons in Hx as [->|Hx]; [auto|].
    apply list_elem_of_singleton in Hx as ->. auto.
  - intros x Hx. cbn in Hx |- *. rewrite !lookup_insert_is_Some' in Hx.
    destruct Hx as [<-|[<-|Hx]]; [lia | lia |]. pose proof (Hfresh x Hx). fold b in H. lia.
  - cbn in H |- *. apply elem_of_app.
    apply (linked_insert_head _ _ _ _ _ Hbk) in H as [->|Hl].
    + right. apply elem_of_cons. right. apply list_elem_of_singleton. reflexivity.
    + left. apply (Hfl _ Hl).
  - cbn in H |- *. apply (linked_insert_head _ _ _ _ _ Hbk) in H as [->|Hl].
    + exists rf. rewrite lookup_insert_eq. auto.
    + destruct (Hfl _ Hl) as (_ & sx & Hsx & Htx). exists sx.
      rewrite Hother; [auto | rewrite Hsx; eauto].
  - cbn. apply elem_of_app. left. apply (Hht _ H).
  - cbn. destruct (Hht _ H) as (_ & sx & Hsx & Htx). exists sx.
    rewrite Hother; [auto | rewrite Hsx; eauto].
  - intros h r Hh Hr. cbn in Hh, Hr. destruct (segqueue vm) as [|x q] eqn:Hq.
    + cbn in Hh. injection Hh as <-.
      rewrite lookup_insert_ne, lookup_insert_eq in Hr by lia.
      injection Hr as <-. reflexivity.
    + cbn in Hh. injection Hh as <-.
      assert (Hx : is_Some (store vm !! x)) by (apply Hval; rewrite Hq; apply elem_of_cons; auto).
      rewrite (Hother x Hx) in Hr. apply (Hhead x r); [rewrite Hq; reflexivity | exact Hr].
Qed.

Lemma arena_wf_empty quantum src nbuckets :
  arena_wf (mkVmem quantum src [] (replicate (Z.to_nat FREELISTS_N) [])
                   (replicate nbuckets []) ∅ 0%nat).
Proof.
  split; [apply NoDup_nil_2|].
  split; [intros p Hp; apply elem_of_nil in Hp; contradiction|].
  split; [intros p [s Hs]; cbn in Hs; rewrite lookup_empty in Hs; discriminate|].
  split; [intros p Hp; cbn in Hp; apply linked_replicate_nil in Hp; contradiction|].
  split; [intros p Hp; cbn in Hp; apply linked_replicate_nil in Hp; contradiction|].
  intros p s Hp. discriminate.
Qed.

Lemma vmem_add_Done vm addr size r :
  vmem_add vm addr size = Done r ->
  vmem_contains vm addr size = Done false /\
  vmem_add_internal vm addr size false = Done r.
Proof.
  unfold vmem_add. intros H. bind_as H c Hc. bind_as H u Hu.
  apply ASSERT_Done in Hu. destruct c; [discriminate|]. auto.
Qed.

Lemma vmem_create_wf nbuckets base size quantum src vm :
  vmem_create nbuckets base size quantum src = Done vm -> arena_wf vm.
Proof.
  unfold vmem_create. destruct (negb src && negb (size =? 0)).
  - intros H. bind_as H r Hadd. destruct r as [p vm1]. injection H as <-.
    apply vmem_add_Done in Hadd. destruct Hadd as [_ Hadd].
    apply vmem_add_internal_shape in Hadd; [|apply arena_wf_empty].
    apply Hadd.
  - intros H. injection H as <-. apply arena_wf_empty.
Qed.

Lemma create_wf base size quantum vm :
  vmem_create 16 base size quantum false = Done vm -> arena_wf (create base size quantum).
Proof.
  intros H. unfold create. rewrite H. exact (vmem_create_wf _ _ _ _ _ _ H).
Qed.

(** X19: [vmem_add] on a well-shaped arena appends the SPAN record and the FREE
    record of the new span to the segment queue, in two fresh records, links
    the FREE record at the head of the free list of its size, leaves the hash
    table alone, and the arena stays well-shaped. *)
Theorem add_installs_span vm addr size p vm' :
  arena_wf vm ->
  vmem_add vm addr size = Done (p, vm') ->
  p = S (brk vm) /\
  segqueue vm' = segqueue vm ++ [brk vm; p] /\
  store vm' !! brk vm = Some (mkSeg SEGMENT_SPAN false addr size) /\
  store vm' !! p = Some (mkSeg SEGMENT_FREE false addr size) /\
  (exists i bucket, freelist_for_size vm size = Done i /\
     freelist vm !! i = Some bucket /\
     freelist vm' = <[i := p :: bucket]> (freelist vm)) /\
  hashtable vm' = hashtable vm /\
  arena_wf vm'.
Proof.
  intros Hwf H. apply vmem_add_Done in H. destruct H as [_ H].
  exact (vmem_add_internal_shape _ _ _ _ _ _ Hwf H).
Qed.

Lemma arena_two_wf : arena_wf arena_two.
Proof. apply (create_wf _ _ _ arena_two). vm_compute. reflexivity. Qed.

Lemma add_installs_span_witness :
  3%nat = S (brk arena_two) /\
  segqueue arena_two_spans = segqueue arena_two ++ [brk arena_two; 3%nat] /\
  store arena_two_spans !! brk arena_two = Some (mkSeg SEGMENT_SPAN false 0x2000 0x3000) /\
  store arena_two_spans !! 3%nat = Some (mkSeg SEGMENT_FREE false 0x2000 0x3000) /\
  (exists i bucket, freelist_for_size arena_two 0x3000 = Done i /\
     freelist arena_two !! i = Some bucket /\
     freelist arena_two_spans = <[i := 3%nat :: bucket]> (freelist arena_two)) /\
  hashtable arena_two_spans = hashtable arena_two /\
  arena_wf arena_two_spans.
Proof.
  apply (add_installs_span arena_two 0x2000 0x3000 3%nat arena_two_spans).
  - exact arena_two_wf.
  - vm_compute. reflexivity.
Defined.

(** X20: every arena [vmem_create] returns is well-shaped, has the 64 empty or
    singly filled free lists and the hash table it was asked for, and holds
    no allocation. *)
Theorem create_builds_shape nbuckets base size quantum' src vm :
  vmem_create nbuckets base size quantum' src = Done vm ->
  arena_wf vm /\ quantum vm = quantum' /\ source vm = src /\
  length (freelist vm) = 64%nat /\ hashtable vm = replicate nbuckets [].
Proof.
  intros H. split; [exact (vmem_create_wf _ _ _ _ _ _ H)|].
  unfold vmem_create in H. destruct (negb src && negb (size =? 0)).
  - bind_as H r Hadd. destruct r as [p vm1]. injection H as <-.
    apply vmem_add_Done in Hadd. destruct Hadd as [_ Hadd].
    apply vmem_add_internal_effect in Hadd;
      [|cbn; intros Hin; apply elem_of_nil in Hin; contradiction].
    destruct Hadd as (_ & i & bucket & _ & _ & ->).
    cbn [quantum source freelist hashtable].
    rewrite length_insert, length_replicate. auto.
  - injection H as <-. split; [reflexivity|]. split; [reflexivity|].
    split; reflexivity.
Qed.

Lemma create_builds_shape_witness :
  arena_wf arena_64k /\ quantum arena_64k = 0x100 /\ source arena_64k = false /\
  length (freelist arena_64k) = 64%nat /\ hashtable arena_64k = replicate 16 [].
Proof.
  apply (create_builds_shape 16 0 0x10000 0x100 false arena_64k).
  vm_compute. reflexivity.
Defined.

Lemma contains_loop_false_valid vm q start end_ :
  contains_loop vm q start end_ = Done false ->
  forall p, p ∈ q -> is_Some (store vm !! p).
Proof.
  induction q as [|x r IH]; cbn; intros H p Hp.
  - apply elem_of_nil in Hp. contradiction.
  - bind_as H s Hs. apply load_Done in Hs.
    destruct (seg_contains s start end_); [discriminate|].
    apply elem_of_cons in Hp as [->|Hp]; [rewrite Hs; eauto | exact (IH H p Hp)].
Qed.

(** X21: a span that [vmem_add] has installed cannot be installed a second time:
    the same call on the resulting arena fails the assertion. *)
Theorem add_twice_aborts vm addr size p vm' :
  vmem_add vm addr size = Done (p, vm') -> vmem_add vm' addr size = Abort.
Proof.
  intros H. apply vmem_add_Done in H. destruct H as [Hc H].
  pose proof (contains_loop_false_valid _ _ _ _ Hc) as Hval.
  unfold vmem_add_internal, seg_alloc in H. cbv beta iota zeta in H.
  bind_as H vma Ha. bind_as H vmb Hb. injection H as <- <-.
  apply vmem_insert_segment_effect in Ha. destruct Ha as (pv & q' & _ & Hq & ->).
  apply vmem_add_to_freelist_effect in Hb. destruct Hb as (i & bucket & _ & ->).
  cbn in Hq.
  match goal with |- vmem_add ?v _ _ = _ => set (vm' := v) end.
  assert (Hq' : segqueue vm' = q') by reflexivity.
  assert (Hst' : store vm'
                 = <[S (brk vm) := mkSeg SEGMENT_FREE false addr size]>
                     (<[brk vm := mkSeg SEGMENT_SPAN false addr size]> (store vm)))
    by reflexivity.
  clearbody vm'. unfold vmem_add, vmem_contains. rewrite Hq'.
  destruct (contains_loop_spec vm' q' addr (Word.add addr size)) as (b & Hb & Hiff).
  { intros x Hx. apply (TAILQ_INSERT_AFTER_elem _ _ _ _ x Hq) in Hx. rewrite Hst'.
    rewrite !lookup_insert_is_Some'. destruct Hx as [->|Hx]; [auto|].
    apply elem_of_app in Hx as [Hx|Hx]; [auto|].
    apply list_elem_of_singleton in Hx as ->. auto. }
  assert (b = true) as ->.
  { apply Hiff. exists (brk vm), (mkSeg SEGMENT_SPAN false addr size).
    split; [apply (TAILQ_INSERT_AFTER_elem _ _ _ _ _ Hq); right;
            apply elem_of_app; right; apply list_elem_of_singleton; reflexivity|].
    split; [rewrite Hst', lookup_insert_ne, lookup_insert_eq by lia; reflexivity|].
    unfold seg_contains. cbn. apply andb_true_iff. split; apply Z.leb_le; lia. }
  rewrite Hb. reflexivity.
Qed.

Lemma add_twice_aborts_witness : vmem_add arena_two_spans 0x2000 0x3000 = Abort.
Proof.
  apply (add_twice_aborts arena_two 0x2000 0x3000 3%nat arena_two_spans).
  vm_compute. reflexivity.
Defined.

Lemma freelist_for_size_small vm s :
  0 <= s < 2 -> freelist_for_size vm s = Undefined.
Proof.
  intros Hs. assert (s = 0 \/ s = 1) as [->| ->] by lia; reflexivity.
Qed.

Lemma vmem_add_internal_Done vm base size import :
  brk vm ∉ segqueue vm -> length (freelist vm) = 64%nat -> 2 <= size < Word.modulus ->
  exists r, vmem_add_internal vm base size import = Done r.
Proof.
  intros Hb Hlen Hs. unfold vmem_add_internal, seg_alloc. cbv beta iota zeta.
  unfold vmem_insert_segment. cbn [defined mbind outcome_bind obind segqueue set_segqueue].
  rewrite (TAILQ_INSERT_AFTER_tail _ _ _ Hb). cbn [defined mbind outcome_bind obind].
  unfold vmem_add_to_freelist, load. cbn [store set_segqueue write set_store].
  rewrite lookup_insert_eq. cbn [defined mbind outcome_bind obind seg_size].
  destruct (freelist_for_size_Done vm size Hlen Hs) as (i & Hi & Hlt & _).
  unfold freelist_for_size in Hi |- *. cbn [freelist set_segqueue set_store set_brk write].
  rewrite Hi. cbn [mbind outcome_bind obind].
  destruct (lookup_lt_is_Some_2 (freelist vm) i ltac:(lia)) as [bucket Hbucket].
  rewrite Hbucket. cbn. eauto.
Qed.

Lemma vmem_add_internal_small vm base size import :
  brk vm ∉ segqueue vm -> 0 <= size < 2 ->
  vmem_add_internal vm base size import = Undefined.
Proof.
  intros Hb Hs. unfold vmem_add_internal, seg_alloc. cbv beta iota zeta.
  unfold vmem_insert_segment. cbn [defined mbind outcome_bind obind segqueue set_segqueue].
  rewrite (TAILQ_INSERT_AFTER_tail _ _ _ Hb). cbn [defined mbind outcome_bind obind].
  unfold vmem_add_to_freelist, load. cbn [store set_segqueue write set_store].
  rewrite lookup_insert_eq. cbn [defined mbind outcome_bind obind seg_size].
  rewrite freelist_for_size_small by exact Hs. reflexivity.
Qed.





Lemma arena_64k_wf : arena_wf arena_64k.
Proof. apply (create_wf _ _ _ arena_64k). vm_compute. reflexivity. Qed.

Lemma xalloc_keeps_shape_witness : arena_wf arena_64k_split.
Proof.
  apply (xalloc_keeps_shape 1 arena_64k 0x1000 0x1000 0x100 0 0 0 INSTANTFIT 0x100).
  - exact arena_64k_wf.
  - vm_compute. reflexivity.
Defined.

Lemma xalloc_records_allocation_witness : recorded_at arena_64k_split 0x100 0x1000.
Proof.
  apply (xalloc_records_allocation 1 arena_64k 0x1000 0x1000 0x100 0 0 0 INSTANTFIT).
  - exact arena_64k_wf.
  - vm_compute. reflexivity.
Defined.

(** *** What an allocation leaves alone *)

Lemma TAILQ_INSERT_AFTER_sublist q listelm elm q' :
  TAILQ_INSERT_AFTER q listelm elm = Some q' -> sublist q q'.
Proof.
  intros H. apply TAILQ_INSERT_AFTER_split in H. destruct H as (pre & post & -> & ->).
  apply sublist_app; [reflexivity|]. apply sublist_skip, sublist_cons. reflexivity.
Qed.

Lemma xalloc_head_split_frame vm seg n2 s start s1 vm1 :
  xalloc_head_split vm seg n2 s start = Done (s1, vm1) ->
  (forall p, p <> seg -> p <> n2 -> store vm1 !! p = store vm !! p) /\
  sublist (segqueue vm) (segqueue vm1) /\
  quantum vm1 = quantum vm /\ source vm1 = source vm.
Proof.
  intros H. apply xalloc_head_split_effect in H.
  destruct H as [(_ & _ & ->)|(_ & _ & i & bucket & pv & q' & _ & Hq & ->)].
  - split; [reflexivity|]. split; [reflexivity|]. auto.
  - cbn. split; [|split; [exact (TAILQ_INSERT_AFTER_sublist _ _ _ _ Hq) | auto]].
    intros p H1 H2. rewrite !lookup_insert_ne by auto. reflexivity.
Qed.

Lemma xalloc_tail_split_frame vm seg n s size a vm' :
  xalloc_tail_split vm seg n s size = Done (a, vm') ->
  (forall p, p <> seg -> p <> n -> store vm' !! p = store vm !! p) /\
  sublist (segqueue vm) (segqueue vm') /\
  quantum vm' = quantum vm /\ source vm' = source vm.
Proof.
  intros H. apply xalloc_tail_split_effect in H. destruct H as [_ H].
  destruct H as [(i & bucket & pv & q' & sx & j & hb & _ & Hq & _ & _ & _ & ->)
                |(sx & j & hb & _ & _ & _ & _ & ->)]; cbn.
  - split; [|split; [exact (TAILQ_INSERT_AFTER_sublist _ _ _ _ Hq) | auto]].
    intros p H1 H2. rewrite !lookup_insert_ne by auto. reflexivity.
  - split; [|split; [reflexivity | auto]].
    intros p H1 H2. rewrite lookup_insert_ne by auto. reflexivity.
Qed.

(** X24: an allocation rewrites one record only, the FREE segment it chose from
    the free lists: every other record of a well-shaped arena, the spans
    among them, is the same after a successful [vmem_xalloc]; the segment
    queue keeps its entries in their order and only gains the new ones, and
    the quantum and the source stay. *)
Theorem xalloc_touches_one_segment
    fuel vm size align phase nocross minaddr maxaddr vmflag a vm' :
  arena_wf vm ->
  vmem_xalloc fuel vm size align phase nocross minaddr maxaddr vmflag = Done (a, vm') ->
  exists seg,
    linked (freelist vm) seg /\
    (forall p, p <> seg -> is_Some (store vm !! p) -> store vm' !! p = store vm !! p) /\
    sublist (segqueue vm) (segqueue vm') /\
    quantum vm' = quantum vm /\ source vm' = source vm.
Proof.
  intros Hwf H. pose proof Hwf as (_ & _ & Hfresh & _).
  unfold vmem_xalloc in H.
  bind_as H fl Hfl. bind_as H u Hcross. cbn in H.
  bind_as H r Hsearch. destruct r as [seg start].
  apply xalloc_search_Done, xalloc_turn_linked in Hsearch.
  destruct Hsearch as [_ Hlinked]. apply linked_drop in Hlinked.
  exists seg. split; [exact Hlinked|].
  unfold xalloc_found in H.
  bind_as H s Hs. bind_as H u1 Hfree. bind_as H u2 Hsize.
  bind_as H r Hhs. destruct r as [s1 vm1]. bind_as H u3 Hbase.
  apply xalloc_head_split_frame in Hhs. destruct Hhs as (Hst1 & Hq1 & Hqu1 & Hso1).
  apply xalloc_tail_split_frame in H. destruct H as (Hst2 & Hq2 & Hqu2 & Hso2).
  cbn in Hst1, Hq1, Hqu1, Hso1.
  split; [|split; [etransitivity; eauto | split; congruence]].
  intros p Hp Hsome. pose proof (Hfresh p Hsome) as Hlt.
  rewrite Hst2, Hst1 by lia. reflexivity.
Qed.

Lemma xalloc_touches_one_segment_witness :
  exists seg,
    linked (freelist arena_64k) seg /\
    (forall p, p <> seg -> is_Some (store arena_64k !! p) ->
               store arena_64k_split !! p = store arena_64k !! p) /\
    sublist (segqueue arena_64k) (segqueue arena_64k_split) /\
    quantum arena_64k_split = quantum arena_64k /\
    source arena_64k_split = source arena_64k.
Proof.
  apply (xalloc_touches_one_segment 1 arena_64k 0x1000 0x1000 0x100 0 0 0 INSTANTFIT 0x100).
  - exact arena_64k_wf.
  - vm_compute. reflexivity.
Defined.

(** *** No undefined behaviour on a granular arena *)

Lemma bind_not_Undefined {A B} (m : outcome A) (f : A -> outcome B) :
  m <> Undefined -> (forall a, m = Done a -> f a <> Undefined) -> m ≫= f <> Undefined.
Proof. destruct m; cbn; auto; discriminate. Qed.

Lemma ASSERT_not_Undefined b : ASSERT b <> Undefined.
Proof. destruct b; discriminate. Qed.

Lemma seg_fit_not_Undefined seg size align phase nocross minaddr maxaddr :
  seg_fit seg size align phase nocross minaddr maxaddr <> Undefined.
Proof.
  unfold seg_fit.
  apply bind_not_Undefined; [apply ASSERT_not_Undefined|]. intros _ _.
  apply bind_not_Undefined; [apply ASSERT_not_Undefined|]. intros _ _.
  destruct (_ <? _); [discriminate|].
  apply bind_not_Undefined; [apply ASSERT_not_Undefined|]. intros _ _.
  destruct (_ && _); discriminate.
Qed.

Section SearchDefined.

Variables (size align phase nocross minaddr maxaddr : Z) (vm : Vmem).

Lemma instantfit_scan_not_Undefined lists :
  (forall p, linked lists p -> is_Some (store vm !! p)) ->
  instantfit_scan size align phase nocross minaddr maxaddr vm lists <> Undefined.
Proof.
  induction lists as [|l rest IH]; intros Hval; cbn; [discriminate|].
  assert (Hrest : forall p, linked rest p -> is_Some (store vm !! p)).
  { intros p (l' & Hl' & Hp). apply Hval. exists l'. split; [apply elem_of_cons; auto | auto]. }
  destruct l as [|q l']; [exact (IH Hrest)|].
  destruct (Hval q) as [s Hs].
  { exists (q :: l'). split; apply elem_of_cons; auto. }
  unfold load. rewrite Hs. cbn.
  apply bind_not_Undefined; [apply seg_fit_not_Undefined|].
  intros [st|] _; [discriminate | exact (IH Hrest)].
Qed.

Lemma bestfit_list_not_Undefined l :
  (forall p, p ∈ l -> is_Some (store vm !! p)) ->
  bestfit_list size align phase nocross minaddr maxaddr vm l <> Undefined.
Proof.
  induction l as [|q rest IH]; intros Hval; cbn; [discriminate|].
  assert (Hrest : forall p, p ∈ rest -> is_Some (store vm !! p))
    by (intros p Hp; apply Hval; apply elem_of_cons; auto).
  destruct (Hval q) as [s Hs]; [apply elem_of_cons; auto|].
  unfold load. rewrite Hs. cbn.
  destruct (size <=? seg_size s); [|exact (IH Hrest)].
  apply bind_not_Undefined; [apply seg_fit_not_Undefined|].
  intros [st|] _; [discriminate | exact (IH Hrest)].
Qed.

Lemma bestfit_scan_not_Undefined lists :
  (forall p, linked lists p -> is_Some (store vm !! p)) ->
  bestfit_scan size align phase nocross minaddr maxaddr vm lists <> Undefined.
Proof.
  induction lists as [|l rest IH]; intros Hval; cbn; [discriminate|].
  assert (Hrest : forall p, linked rest p -> is_Some (store vm !! p)).
  { intros p (l' & Hl' & Hp). apply Hval. exists l'. split; [apply elem_of_cons; auto | auto]. }
  apply bind_not_Undefined.
  - apply bestfit_list_not_Undefined. intros p Hp. apply Hval.
    exists l. split; [apply elem_of_cons; auto | exact Hp].
  - intros [x|] _; [discriminate | exact (IH Hrest)].
Qed.

Lemma xalloc_turn_not_Undefined fl vmflag :
  (forall p, linked (freelist vm) p -> is_Some (store vm !! p)) ->
  xalloc_turn size align phase nocross minaddr maxaddr vm fl vmflag <> Undefined.
Proof.
  intros Hval. unfold xalloc_turn.
  assert (Hd : forall p, linked (drop fl (freelist vm)) p -> is_Some (store vm !! p))
    by (intros p Hp; apply Hval; exact (linked_drop _ _ _ Hp)).
  destruct (VM_INSTANTFIT vmflag); [exact (instantfit_scan_not_Undefined _ Hd)|].
  destruct (VM_BESTFIT vmflag); [exact (bestfit_scan_not_Undefined _ Hd) | discriminate].
Qed.

Lemma xalloc_search_not_Undefined fuel fl vmflag :
  (forall p, linked (freelist vm) p -> is_Some (store vm !! p)) ->
  xalloc_search size align phase nocross minaddr maxaddr fuel vm fl vmflag <> Undefined.
Proof.
  intros Hval. induction fuel as [|fuel IH]; cbn; [discriminate|].
  apply bind_not_Undefined; [exact (xalloc_turn_not_Undefined _ _ Hval)|].
  intros [x|] _; [discriminate | exact IH].
Qed.

End SearchDefined.

Lemma tailq_prev_from_Some last q seg :
  seg ∈ q -> (head q = Some seg -> is_Some last) ->
  exists pv, tailq_prev_from last q seg = Some pv /\ (last = Some pv \/ pv ∈ q).
Proof.
  revert last. induction q as [|x r IH]; intros last Hin Hhead.
  - apply elem_of_nil in Hin. contradiction.
  - cbn. destruct (decide (x = seg)) as [->|Hne].
    + destruct (Hhead eq_refl) as [pv ->]. exists pv. auto.
    + apply elem_of_cons in Hin as [?|Hin]; [congruence|].
      destruct (IH (Some x) Hin ltac:(eauto)) as (pv & Hpv & Hor).
      exists pv. split; [exact Hpv|]. right. apply elem_of_cons.
      destruct Hor as [Heq|Hr]; [left; congruence | right; exact Hr].
Qed.

Lemma TAILQ_PREV_Some q seg :
  seg ∈ q -> head q <> Some seg -> exists pv, TAILQ_PREV q seg = Some pv /\ pv ∈ q.
Proof.
  intros Hin Hhead. unfold TAILQ_PREV.
  destruct (tailq_prev_from_Some None q seg Hin ltac:(intros; contradiction))
    as (pv & Hpv & [?|Hq]); [discriminate|]. eauto.
Qed.

Lemma TAILQ_INSERT_AFTER_Some q pv e :
  pv ∈ q -> is_Some (TAILQ_INSERT_AFTER q pv e).
Proof.
  induction q as [|x r IH]; intros Hin; [apply elem_of_nil in Hin; contradiction|].
  cbn. destruct (decide (x = pv)); [eauto|].
  apply elem_of_cons in Hin as [?|Hin]; [congruence|].
  destruct (IH Hin) as [r' ->]. cbn. eauto.
Qed.

(** Inserting before a queued segment that is not the first entry works. *)
Lemma vmem_insert_before_Done vm p seg :
  seg ∈ segqueue vm -> head (segqueue vm) <> Some seg ->
  exists vm', vmem_insert_segment vm p (TAILQ_PREV (segqueue vm) seg) = Done vm'.
Proof.
  intros Hin Hhead. destruct (TAILQ_PREV_Some _ _ Hin Hhead) as (pv & -> & Hpv).
  unfold vmem_insert_segment. cbn.
  destruct (TAILQ_INSERT_AFTER_Some (segqueue vm) pv p Hpv) as [q' ->]. cbn. eauto.
Qed.

Lemma vmem_add_to_freelist_Done vm p s :
  store vm !! p = Some s -> length (freelist vm) = 64%nat ->
  2 <= seg_size s < Word.modulus ->
  exists vm', vmem_add_to_freelist vm p = Done vm'.
Proof.
  intros Hs Hlen Hsz. unfold vmem_add_to_freelist, load. rewrite Hs. cbn.
  destruct (freelist_for_size_Done vm (seg_size s) Hlen Hsz) as (i & -> & Hi & _). cbn.
  destruct (lookup_lt_is_Some_2 (freelist vm) i ltac:(lia)) as [bucket ->]. cbn. eauto.
Qed.

(** *** add and containment *)



(** *** Definedness of the code after [found] *)

Lemma not_queue_head vm seg s :
  queue_head_span vm -> store vm !! seg = Some s -> seg_type s = SEGMENT_FREE ->
  head (segqueue vm) <> Some seg.
Proof. intros Hhead Hs Hfree Hh. pose proof (Hhead seg s Hh Hs). congruence. Qed.

Lemma xalloc_tail_split_defined vm seg n s size :
  queue_head_span vm -> seg ∈ segqueue vm ->
  store vm !! seg = Some s -> seg_type s = SEGMENT_FREE ->
  store vm !! n = None ->
  2 <= quantum vm < Word.modulus ->
  length (freelist vm) = 64%nat -> hashtable vm <> [] ->
  xalloc_tail_split vm seg n s size <> Undefined.
Proof.
  intros Hhead Hsq Hs Hfree Hn Hq Hlen Hht.
  assert (Hne : seg <> n) by congruence.
  pose proof (not_queue_head vm seg s Hhead Hs Hfree) as Hnh.
  unfold xalloc_tail_split. destruct (_ && _) eqn:Hcond.
  - apply andb_true_iff in Hcond as [_ Hleft]. apply Z.ltb_lt in Hleft.
    unfold Word.sub at 1 in Hleft. rewrite wrap_small in Hleft by lia.
    set (rn := mkSeg SEGMENT_ALLOCATED false (seg_base s) size).
    set (s2 := mkSeg (seg_type s) (seg_imported s) _ (Word.sub (seg_size s) size)).
    set (vmD := write seg s2 (write n rn vm)).
    destruct (vmem_add_to_freelist_Done vmD seg s2) as [vmE HE].
    { unfold vmD. cbn. apply lookup_insert_eq. }
    { exact Hlen. }
    { cbn [seg_size s2]. pose proof (wrap_range (seg_size s - size)). unfold Word.sub in *. lia. }
    rewrite HE. cbn [mbind outcome_bind obind].
    apply vmem_add_to_freelist_effect in HE. destruct HE as (i & bucket & _ & ->).
    cbn [segqueue set_freelist vmD write set_store].
    destruct (vmem_insert_before_Done
                (set_freelist (<[i := seg :: bucket]> (freelist vmD)) vmD) n seg Hsq Hnh)
      as [vmF HF].
    cbn [segqueue set_freelist vmD write set_store] in HF. rewrite HF.
    cbn [mbind outcome_bind obind].
    apply vmem_insert_segment_effect in HF. destruct HF as (pv & q' & _ & _ & ->).
    destruct (hashtab_insert_Done
                (set_segqueue q' (set_freelist (<[i := seg :: bucket]> (freelist vmD)) vmD))
                n rn) as (j & hb & _ & _ & HG).
    { cbn. rewrite lookup_insert_ne, lookup_insert_eq by auto. reflexivity. }
    { exact Hht. }
    cbn [segqueue set_freelist vmD write set_store] in HG. rewrite HG.
    cbn [mbind outcome_bind obind].
    apply bind_not_Undefined; [apply ASSERT_not_Undefined | discriminate].
  - destruct (hashtab_insert_Done vm seg s Hs Hht) as (j & hb & _ & _ & HG).
    rewrite HG. cbn [mbind outcome_bind obind].
    apply bind_not_Undefined; [apply ASSERT_not_Undefined | discriminate].
Qed.

Lemma length_LIST_REMOVE elm lists : length (LIST_REMOVE elm lists) = length lists.
Proof. unfold LIST_REMOVE. apply length_map. Qed.

Lemma xalloc_head_split_Done vm seg n2 s start :
  queue_head_span vm -> seg ∈ segqueue vm ->
  store vm !! seg = Some s -> seg_type s = SEGMENT_FREE ->
  store vm !! n2 = None ->
  good_record (quantum vm) s -> 2 <= quantum vm ->
  (quantum vm | start) -> 0 <= start < Word.modulus ->
  (quantum vm | Word.modulus) ->
  length (freelist vm) = 64%nat ->
  exists r, xalloc_head_split vm seg n2 s start = Done r.
Proof.
  intros Hhead Hsq Hs Hfree Hn2 ((Hbr & Hbd) & _) Hq Hstd Hstr Hm Hlen.
  assert (Hne : seg <> n2) by congruence.
  pose proof (not_queue_head vm seg s Hhead Hs Hfree) as Hnh.
  unfold xalloc_head_split.
  destruct (Z.eqb_spec (seg_base s) start) as [Heq|Hneq]; cbn [negb]; [eauto|].
  set (s2 := mkSeg SEGMENT_FREE false (seg_base s) (Word.sub start (seg_base s))).
  set (s1 := mkSeg (seg_type s) (seg_imported s) start _).
  set (vmB := write seg s1 (write n2 s2 vm)).
  destruct (vmem_add_to_freelist_Done vmB n2 s2) as [vmC HC].
  { unfold vmB. cbn. rewrite lookup_insert_ne, lookup_insert_eq by auto. reflexivity. }
  { exact Hlen. }
  { cbn [seg_size s2].
    pose proof (wrap_sub_ne start (seg_base s) Hstr Hbr ltac:(congruence)) as Hlead.
    assert (Hd : (quantum vm | Word.sub start (seg_base s)))
      by (apply wrap_divide; [exact Hm | apply Z.divide_sub_r; assumption]).
    apply Z.divide_pos_le in Hd; lia. }
  rewrite HC. cbn [mbind outcome_bind obind].
  apply vmem_add_to_freelist_effect in HC. destruct HC as (i & bucket & _ & ->).
  cbn [segqueue set_freelist vmB write set_store].
  destruct (vmem_insert_before_Done
              (set_freelist (<[i := n2 :: bucket]> (freelist vmB)) vmB) n2 seg Hsq Hnh)
    as [vmD HD].
  cbn [segqueue set_freelist vmB write set_store] in HD. rewrite HD.
  cbn [mbind outcome_bind obind]. eauto.
Qed.

Lemma xalloc_head_split_lists vm seg n2 s start s1 vm1 :
  xalloc_head_split vm seg n2 s start = Done (s1, vm1) ->
  length (freelist vm1) = length (freelist vm).
Proof.
  intros H. apply xalloc_head_split_effect in H.
  destruct H as [(_ & _ & ->)|(_ & _ & i & bucket & pv & q' & _ & _ & ->)];
    [reflexivity|]. cbn. apply length_insert.
Qed.

Lemma xalloc_found_defined vm seg n n2 start size :
  arena_wf vm -> granular vm ->
  (quantum vm | Word.modulus) -> 2 <= quantum vm < Word.modulus ->
  (quantum vm | size) -> 0 < size ->
  (quantum vm | start) -> 0 <= start < Word.modulus ->
  linked (freelist vm) seg ->
  store vm !! n = None -> (n < brk vm)%nat ->
  store vm !! n2 = None -> (n2 < brk vm)%nat -> n <> n2 ->
  length (freelist vm) = 64%nat -> hashtable vm <> [] ->
  xalloc_found vm seg n n2 start size <> Undefined.
Proof.
  intros Hwf Hg Hm Hq Hszd Hpos Hstd Hstr Hlinked Hn Hnlt Hn2 Hn2lt Hnn Hlen Hht.
  pose proof Hwf as (Hnd & Hval & Hfresh & Hfl & Hhtl & Hhead).
  destruct (Hfl seg Hlinked) as (Hsq & s & Hs & Hfree).
  unfold xalloc_found, load. rewrite Hs. cbn [defined mbind outcome_bind obind].
  apply bind_not_Undefined; [apply ASSERT_not_Undefined|]. intros _ _.
  apply bind_not_Undefined; [apply ASSERT_not_Undefined|]. intros _ _.
  set (vm0 := set_freelist (LIST_REMOVE seg (freelist vm)) vm).
  assert (Hwf0 : arena_wf vm0).
  { split; [exact Hnd|]. split; [exact Hval|]. split; [exact Hfresh|].
    split; [|auto]. intros p Hp. cbn in Hp.
    apply linked_LIST_REMOVE in Hp as [Hp _]. exact (Hfl p Hp). }
  assert (Hnl0 : ~ linked (freelist vm0) seg).
  { cbn. intros Hl. apply linked_LIST_REMOVE in Hl as [_ Hl]. contradiction. }
  assert (Hgood : good_record (quantum vm) s).
  { apply (granular_lookup vm seg); [exact Hg | exact Hs | congruence]. }
  assert (Hlen0 : length (freelist vm0) = 64%nat)
    by (cbn; rewrite length_LIST_REMOVE; exact Hlen).
  assert (Hex : exists r, xalloc_head_split vm0 seg n2 s start = Done r).
  { apply (xalloc_head_split_Done vm0 seg n2 s start Hhead Hsq Hs Hfree Hn2 Hgood);
      [exact (proj1 Hq) | exact Hstd | exact Hstr | exact Hm | exact Hlen0]. }
  destruct Hex as [[s1 vm1] Hhs].
  rewrite Hhs. cbn [mbind outcome_bind obind].
  apply bind_not_Undefined; [apply ASSERT_not_Undefined|]. intros _ _.
  destruct (xalloc_head_split_wf vm0 seg n2 s start s1 vm1 Hwf0 Hsq Hnl0 Hs Hfree
              Hn2 Hn2lt Hhs)
    as (Hwf1 & Hsq1 & _ & Hs1 & Hfree1 & _ & _ & Hht1 & Hnone).
  pose proof (xalloc_head_split_lists _ _ _ _ _ _ _ Hhs) as Hlen1.
  destruct (xalloc_head_split_granular vm0 seg n2 s start s1 vm1 Hm Hstd Hstr Hgood Hg Hhs)
    as (Hq1 & _).
  destruct Hwf1 as (_ & _ & _ & _ & _ & Hhead1).
  apply (xalloc_tail_split_defined vm1 seg n s1 size Hhead1 Hsq1 Hs1 Hfree1).
  - apply Hnone; auto.
  - rewrite Hq1. exact Hq.
  - rewrite Hlen1. exact Hlen0.
  - rewrite Hht1. exact Hht.
Qed.


